(** * The inspector I/O bridge of node (src/inspector_io.cc)

    A shallow embedding of [InspectorIo], its transport delegate
    [InspectorIoDelegate] and the helpers of the anonymous namespace, with
    the properties of the bridge stated over the embedding.

    The runtime thread and the I/O thread are modelled by explicit state
    passing over one [World]; what the other thread does while a function
    runs is an argument of that function.  Calls into the collaborators that
    are not part of the file (the runtime agent, the socket server, libuv,
    the platform, stderr) are recorded in a trace of [Event]s. *)

From Stdlib Require Import ZArith Ascii String List Lia Strings.Byte.
From stdpp Require Import base option list gmap strings relations.

(** ** Outcomes

    A call returns, dies in a [CHECK] (the process aborts), or waits for
    ever on a semaphore or a condition variable nobody signals. *)

Inductive Outcome (A : Type) : Type :=
| Returns (a : A)
| Aborts
| Blocks.
Arguments Returns {A} a.
Arguments Aborts {A}.
Arguments Blocks {A}.

(** Sequencing, with stdpp's notations [x ← o; k] and [o ;; k]. *)
#[global] Instance Outcome_ret : MRet Outcome := λ A a, Returns a.
#[global] Instance Outcome_bind : MBind Outcome := λ A B k o,
  match o with
  | Returns a => k a
  | Aborts => Aborts
  | Blocks => Blocks
  end.

(** [CHECK(c)]: abort unless [c] holds. *)
Definition CHECK (c : bool) : Outcome unit :=
  if c then Returns tt else Aborts.

(** ** Target identity: [GenerateID] *)

Module Uuid.

(** One lowercase hexadecimal digit, as [%x] prints it. *)
Definition hex_digit (d : Z) : ascii :=
  if (d <? 10)%Z then ascii_of_nat (48 + Z.to_nat d)
  else ascii_of_nat (87 + Z.to_nat d).

(** The digits of [v] in base 16, most significant first, without leading
    zeros (a single [0] for zero).  An [unsigned int] has at most eight. *)
Fixpoint hex_digits (fuel : nat) (v : Z) (acc : string) : string :=
  match fuel with
  | O => acc
  | S fuel' =>
      let acc' := String (hex_digit (v mod 16)) acc in
      if (v / 16 =? 0)%Z then acc' else hex_digits fuel' (v / 16) acc'
  end.

Fixpoint zeros (n : nat) : string :=
  match n with
  | O => EmptyString
  | S n' => String "0"%char (zeros n')
  end.

(** The conversion [%04x] of [snprintf]: the argument is read as an
    [unsigned int] and padded with zeros on the left to four characters. *)
Definition fmt_04x (v : Z) : string :=
  let digits := hex_digits 8 (v mod 2 ^ 32) EmptyString in
  zeros (4 - String.length digits) +:+ digits.

(** [buffer[i]] of the [uint16_t buffer[8]] that [EntropySource] filled
    through an [unsigned char*]: two bytes, the low one first.  Memory past
    the bytes supplied reads as zero. *)
Definition buffer_at (mem : list Byte.byte) (i : nat) : Z :=
  let lo := Z.of_N (Byte.to_N (nth (2 * i) mem Byte.x00)) in
  let hi := Z.of_N (Byte.to_N (nth (2 * i + 1) mem Byte.x00)) in
  Z.lor lo (Z.shiftl hi 8).

Definition dash : string := String "-"%char EmptyString.

(** The [snprintf] of [GenerateID] with the format
    [%04x%04x-%04x-%04x-%04x-%04x%04x%04x]. *)
Definition format_uuid (mem : list Byte.byte) : string :=
  let buffer := buffer_at mem in
  fmt_04x (buffer 0)                                        (* time_low *)
  +:+ fmt_04x (buffer 1)                                    (* time_mid *)
  +:+ dash +:+ fmt_04x (buffer 2)                           (* time_low *)
  +:+ dash +:+ fmt_04x (Z.lor (Z.land (buffer 3) 0x0fff) 0x4000)
                                                 (* time_hi_and_version *)
  +:+ dash +:+ fmt_04x (Z.lor (Z.land (buffer 4) 0x3fff) 0x8000)
                                             (* clk_seq_hi clk_seq_low *)
  +:+ dash +:+ fmt_04x (buffer 5)                               (* node *)
  +:+ fmt_04x (buffer 6)
  +:+ fmt_04x (buffer 7).

(** [GenerateID]: [entropy] is what [crypto::EntropySource] delivers, [None]
    when it reports failure, on which the [CHECK] aborts. *)
Definition GenerateID (entropy : option (list Byte.byte)) : Outcome string :=
  match entropy with
  | None => Aborts
  | Some mem => Returns (format_uuid mem)
  end.

(** *** The shape the specification asks for

    [^[0-9a-f]{8}-[0-9a-f]{4}-4[0-9a-f]{3}-[89ab][0-9a-f]{3}-[0-9a-f]{12}$]
    as a list of character classes, one per position. *)

Inductive CharClass : Type :=
| Hex                       (* [0-9a-f] *)
| Lit (c : ascii)           (* the character itself *)
| OneOf (cs : list ascii).  (* a bracket expression *)

Definition is_lower_hex (c : ascii) : bool :=
  let n := nat_of_ascii c in
  ((48 <=? n) && (n <=? 57) || (97 <=? n) && (n <=? 102))%nat.

Definition class_ok (k : CharClass) (c : ascii) : bool :=
  match k with
  | Hex => is_lower_hex c
  | Lit c' => Ascii.eqb c c'
  | OneOf cs => existsb (Ascii.eqb c) cs
  end.

Fixpoint matches (pat : list CharClass) (s : string) : bool :=
  match pat, s with
  | [], EmptyString => true
  | k :: pat', String c s' => class_ok k c && matches pat' s'
  | _, _ => false
  end.

Definition hex4 : list CharClass := [Hex; Hex; Hex; Hex].
Definition version4 : list CharClass := [Lit "4"%char; Hex; Hex; Hex].
Definition variant4 : list CharClass :=
  [OneOf ["8"; "9"; "a"; "b"]%char; Hex; Hex; Hex].

Definition uuid_v4_pattern : list CharClass :=
  hex4 ++ hex4 ++ [Lit "-"%char] ++ hex4 ++ [Lit "-"%char] ++ version4
  ++ [Lit "-"%char] ++ variant4 ++ [Lit "-"%char] ++ hex4 ++ hex4 ++ hex4.

Definition uuid_v4_shape (s : string) : bool := matches uuid_v4_pattern s.

End Uuid.

(** ** The data of the bridge *)

(** [InspectorIo::State].  The enumeration is declared in the header; these
    are the values the file names. *)
Inductive State : Type := kNew | kAccepting | kDone | kError | kShutDown.

#[global] Instance State_eq_dec : EqDecision State.
Proof. solve_decision. Defined.

(** Actions of the incoming queue, posted by the transport delegate. *)
Module InspectorAction.
Inductive t : Type :=
| kStartSession
| kStartSessionUnconditionally
| kSendMessage
| kEndSession.
#[global] Instance eq_dec : EqDecision t.
Proof. solve_decision. Defined.
End InspectorAction.

(** Actions of the outgoing queue, applied to the transport. *)
Module TransportAction.
Inductive t : Type :=
| kKill
| kSendMessage
| kStop
| kAcceptSession
| kDeclineSession.
#[global] Instance eq_dec : EqDecision t.
Proof. solve_decision. Defined.
End TransportAction.

(** A [StringBuffer]: the 16-bit code units of a message.  [StringView()]
    is the empty one. *)
Definition StringBuffer : Type := list Z.
Definition empty_view : StringBuffer := [].

(** [MessageQueue<ActionType>]: a deque of (action, session id, payload),
    its front at the head of the list. *)
Definition Message (ActionType : Type) : Type := (ActionType * Z * StringBuffer)%type.
Definition MessageQueue (ActionType : Type) : Type := list (Message ActionType).

(** The two queues that [AppendMessage] is called on. *)
Inductive QueueName : Type := Incoming | Outgoing.

#[global] Instance QueueName_eq_dec : EqDecision QueueName.
Proof. solve_decision. Defined.

(** What the bridge does to the world around it, in the order it does it.
    [Appended] records a call of [AppendMessage] and the flag it returned;
    the other events are calls into collaborators. *)
Inductive Event : Type :=
| Appended (queue : QueueName) (trigger_pumping : bool)
| Stderr (text : string)                  (* fprintf(stderr, text) *)
| Fflush                                  (* fflush(stderr) *)
| IoAsyncSend                             (* uv_async_send(&thread_req_) *)
| CallOnForegroundThread                  (* a DispatchMessagesTask is posted *)
| RequestInterrupt                        (* isolate->RequestInterrupt *)
| MainAsyncSend                           (* uv_async_send(&main_thread_req_->first) *)
| Broadcast                               (* incoming_message_cond_.Broadcast *)
| AgentConnect (session_id : Z)           (* agent->Connect(IoSessionDelegate(io, id)) *)
| SessionDispatch (session : nat) (message : StringBuffer)
| ResumeStartupCalled                           (* io_->ResumeStartup() *)
| ServerDone                              (* io_->ServerDone() *)
| TerminateConnections                    (* transport->TerminateConnections() *)
| TransportStop                           (* transport->Stop() *)
| TransportSend (session_id : Z) (message : string)
| AcceptSession (session_id : Z)
| DeclineSession (session_id : Z).

#[global] Instance Event_eq_dec : EqDecision Event.
Proof. solve_decision. Defined.

(** The collaborators the file calls but does not define.  The runtime
    agent keeps a state of its own; [agent_Connect] returns the new session
    (a null pointer is [None]); dispatching a message to a session makes the
    agent call [SendMessageToFrontend] on session delegates, each call given
    by the delegate's [id_] and the message.  The two string conversions
    are ICU's and the protocol utility layer's. *)
Class Collaborators : Type := {
  AgentState : Type;
  agent_Connect : AgentState → Z → AgentState * option nat;
  session_Dispatch :
    AgentState → nat → StringBuffer → AgentState * list (Z * StringBuffer);
  Utf8ToStringView : string → StringBuffer;
  StringViewToUtf8 : StringBuffer → string;
}.

(** [InspectorIoDelegate], the fields the handlers read or write. *)
Record InspectorIoDelegate : Type := {
  session_id_ : Z;
  waiting_ : bool;
}.

(** The bridge ([InspectorIo], the fields of the same names), the transport
    delegate of the I/O thread ([None] when no I/O thread runs), the state
    of the runtime agent and the trace so far. *)
Record World `{Collaborators} : Type := {
  state_ : State;
  sessions_ : gmap Z (option nat);
  incoming_message_queue_ : MessageQueue InspectorAction.t;
  dispatching_message_queue_ : MessageQueue InspectorAction.t;
  outgoing_message_queue_ : MessageQueue TransportAction.t;
  dispatching_messages_ : bool;
  wait_for_connect_ : bool;
  port_ : Z;
  thread_start_sem_ : nat;
  delegate : option InspectorIoDelegate;
  agent : AgentState;
  trace : list Event;
}.

Section Setters.
Context `{Collaborators}.

Definition set_state_ (v : State) (w : World) : World :=
  {| state_ := v; sessions_ := sessions_ w;
     incoming_message_queue_ := incoming_message_queue_ w;
     dispatching_message_queue_ := dispatching_message_queue_ w;
     outgoing_message_queue_ := outgoing_message_queue_ w;
     dispatching_messages_ := dispatching_messages_ w;
     wait_for_connect_ := wait_for_connect_ w; port_ := port_ w;
     thread_start_sem_ := thread_start_sem_ w; delegate := delegate w;
     agent := agent w; trace := trace w |}.

Definition set_sessions_ (v : gmap Z (option nat)) (w : World) : World :=
  {| state_ := state_ w; sessions_ := v;
     incoming_message_queue_ := incoming_message_queue_ w;
     dispatching_message_queue_ := dispatching_message_queue_ w;
     outgoing_message_queue_ := outgoing_message_queue_ w;
     dispatching_messages_ := dispatching_messages_ w;
     wait_for_connect_ := wait_for_connect_ w; port_ := port_ w;
     thread_start_sem_ := thread_start_sem_ w; delegate := delegate w;
     agent := agent w; trace := trace w |}.

Definition set_incoming_message_queue_ (v : MessageQueue InspectorAction.t) (w : World) : World :=
  {| state_ := state_ w; sessions_ := sessions_ w;
     incoming_message_queue_ := v;
     dispatching_message_queue_ := dispatching_message_queue_ w;
     outgoing_message_queue_ := outgoing_message_queue_ w;
     dispatching_messages_ := dispatching_messages_ w;
     wait_for_connect_ := wait_for_connect_ w; port_ := port_ w;
     thread_start_sem_ := thread_start_sem_ w; delegate := delegate w;
     agent := agent w; trace := trace w |}.

Definition set_dispatching_message_queue_ (v : MessageQueue InspectorAction.t) (w : World) : World :=
  {| state_ := state_ w; sessions_ := sessions_ w;
     incoming_message_queue_ := incoming_message_queue_ w;
     dispatching_message_queue_ := v;
     outgoing_message_queue_ := outgoing_message_queue_ w;
     dispatching_messages_ := dispatching_messages_ w;
     wait_for_connect_ := wait_for_connect_ w; port_ := port_ w;
     thread_start_sem_ := thread_start_sem_ w; delegate := delegate w;
     agent := agent w; trace := trace w |}.

Definition set_outgoing_message_queue_ (v : MessageQueue TransportAction.t) (w : World) : World :=
  {| state_ := state_ w; sessions_ := sessions_ w;
     incoming_message_queue_ := incoming_message_queue_ w;
     dispatching_message_queue_ := dispatching_message_queue_ w;
     outgoing_message_queue_ := v;
     dispatching_messages_ := dispatching_messages_ w;
     wait_for_connect_ := wait_for_connect_ w; port_ := port_ w;
     thread_start_sem_ := thread_start_sem_ w; delegate := delegate w;
     agent := agent w; trace := trace w |}.

Definition set_dispatching_messages_ (v : bool) (w : World) : World :=
  {| state_ := state_ w; sessions_ := sessions_ w;
     incoming_message_queue_ := incoming_message_queue_ w;
     dispatching_message_queue_ := dispatching_message_queue_ w;
     outgoing_message_queue_ := outgoing_message_queue_ w;
     dispatching_messages_ := v; wait_for_connect_ := wait_for_connect_ w;
     port_ := port_ w; thread_start_sem_ := thread_start_sem_ w;
     delegate := delegate w; agent := agent w; trace := trace w |}.

Definition set_port_ (v : Z) (w : World) : World :=
  {| state_ := state_ w; sessions_ := sessions_ w;
     incoming_message_queue_ := incoming_message_queue_ w;
     dispatching_message_queue_ := dispatching_message_queue_ w;
     outgoing_message_queue_ := outgoing_message_queue_ w;
     dispatching_messages_ := dispatching_messages_ w;
     wait_for_connect_ := wait_for_connect_ w; port_ := v;
     thread_start_sem_ := thread_start_sem_ w; delegate := delegate w;
     agent := agent w; trace := trace w |}.

Definition set_thread_start_sem_ (v : nat) (w : World) : World :=
  {| state_ := state_ w; sessions_ := sessions_ w;
     incoming_message_queue_ := incoming_message_queue_ w;
     dispatching_message_queue_ := dispatching_message_queue_ w;
     outgoing_message_queue_ := outgoing_message_queue_ w;
     dispatching_messages_ := dispatching_messages_ w;
     wait_for_connect_ := wait_for_connect_ w; port_ := port_ w;
     thread_start_sem_ := v; delegate := delegate w; agent := agent w;
     trace := trace w |}.

Definition set_delegate (v : option InspectorIoDelegate) (w : World) : World :=
  {| state_ := state_ w; sessions_ := sessions_ w;
     incoming_message_queue_ := incoming_message_queue_ w;
     dispatching_message_queue_ := dispatching_message_queue_ w;
     outgoing_message_queue_ := outgoing_message_queue_ w;
     dispatching_messages_ := dispatching_messages_ w;
     wait_for_connect_ := wait_for_connect_ w; port_ := port_ w;
     thread_start_sem_ := thread_start_sem_ w; delegate := v;
     agent := agent w; trace := trace w |}.

Definition set_agent (v : AgentState) (w : World) : World :=
  {| state_ := state_ w; sessions_ := sessions_ w;
     incoming_message_queue_ := incoming_message_queue_ w;
     dispatching_message_queue_ := dispatching_message_queue_ w;
     outgoing_message_queue_ := outgoing_message_queue_ w;
     dispatching_messages_ := dispatching_messages_ w;
     wait_for_connect_ := wait_for_connect_ w; port_ := port_ w;
     thread_start_sem_ := thread_start_sem_ w; delegate := delegate w;
     agent := v; trace := trace w |}.

(** Append events to the trace. *)
Definition emit (es : list Event) (w : World) : World :=
  {| state_ := state_ w; sessions_ := sessions_ w;
     incoming_message_queue_ := incoming_message_queue_ w;
     dispatching_message_queue_ := dispatching_message_queue_ w;
     outgoing_message_queue_ := outgoing_message_queue_ w;
     dispatching_messages_ := dispatching_messages_ w;
     wait_for_connect_ := wait_for_connect_ w; port_ := port_ w;
     thread_start_sem_ := thread_start_sem_ w; delegate := delegate w;
     agent := agent w; trace := trace w ++ es |}.

End Setters.

(** ** Strings the file prints or looks for *)

Definition newline : string := String "010"%char EmptyString.
Definition double_quote : string := String "034"%char EmptyString.

(** ["Debugger attached.\n"] *)
Definition debugger_attached : string := "Debugger attached." +:+ newline.

(** ["Waiting for the debugger to disconnect...\n"] *)
Definition waiting_for_disconnect : string :=
  "Waiting for the debugger to disconnect..." +:+ newline.

(** The argument of [message.find] in [MessageReceived]: the method name
    between two double quotes, as it stands in a JSON message. *)
Definition resume_command : string :=
  double_quote +:+ "Runtime.runIfWaitingForDebugger" +:+ double_quote.

(** [s] starts with [needle]. *)
Fixpoint starts_with (s needle : string) {struct needle} : bool :=
  match needle, s with
  | EmptyString, _ => true
  | String c needle', String c' s' => Ascii.eqb c' c && starts_with s' needle'
  | String _ _, EmptyString => false
  end.

(** The search of [std::string::find] from position [pos] on, [haystack]
    being what is left of the string from there. *)
Fixpoint find_from (pos : nat) (haystack needle : string) : option nat :=
  if starts_with haystack needle then Some pos
  else
    match haystack with
    | EmptyString => None
    | String _ rest => find_from (S pos) rest needle
    end.

(** [haystack.find(needle)]: the first position at which [needle] occurs,
    [None] for [std::string::npos]. *)
Definition find (haystack needle : string) : option nat :=
  find_from 0 haystack needle.

(** ** The mailbox *)

(** [InspectorIo::AppendMessage]: the flag and the queue after the push. *)
Definition AppendMessage {ActionType : Type} (queue : MessageQueue ActionType)
    (action : ActionType) (session_id : Z) (buffer : StringBuffer)
    : bool * MessageQueue ActionType :=
  let trigger_pumping := bool_decide (queue = []) in
  (trigger_pumping, queue ++ [(action, session_id, buffer)]).

(** [InspectorIo::SwapBehindLock] *)
Definition SwapBehindLock {ActionType : Type}
    (vector1 vector2 : MessageQueue ActionType)
    : MessageQueue ActionType * MessageQueue ActionType :=
  (vector2, vector1).

Section Bridge.
Context `{Collaborators}.

(** [InspectorIo::Write].  The flag of [AppendMessage] is dropped and the
    async handle of the I/O thread is signalled; [uv_async_send] on an
    initialised handle returns 0, so the [CHECK_EQ] passes. *)
Definition Write (action : TransportAction.t) (session_id : Z)
    (inspector_message : StringBuffer) (w : World) : World :=
  let '(trigger_pumping, queue) :=
    AppendMessage (outgoing_message_queue_ w) action session_id
                  inspector_message in
  emit [IoAsyncSend]
    (emit [Appended Outgoing trigger_pumping]
      (set_outgoing_message_queue_ queue w)).

(** [InspectorIo::PostIncomingMessage] *)
Definition PostIncomingMessage (action : InspectorAction.t) (session_id : Z)
    (message : string) (w : World) : World :=
  let '(trigger_pumping, queue) :=
    AppendMessage (incoming_message_queue_ w) action session_id
                  (Utf8ToStringView message) in
  let w := emit [Appended Incoming trigger_pumping]
             (set_incoming_message_queue_ queue w) in
  let w :=
    if trigger_pumping
    then emit [CallOnForegroundThread; RequestInterrupt; MainAsyncSend] w
    else w in
  emit [Broadcast] w.

(** [IoSessionDelegate::SendMessageToFrontend], for the delegate with
    [id_ = id]. *)
Definition SendMessageToFrontend (id : Z) (message : StringBuffer)
    (w : World) : World :=
  Write TransportAction.kSendMessage id message w.

(** ** The runtime side *)

(** [InspectorIo::Attach] *)
Definition Attach (session_id : Z) (w : World) : TransportAction.t * World :=
  let w := emit [Stderr debugger_attached] w in
  let w := emit [AgentConnect session_id] w in
  let '(agent', session) := agent_Connect (agent w) session_id in
  let w := set_agent agent' w in
  let w := set_sessions_ (<[session_id := session]> (sessions_ w)) w in
  (TransportAction.kAcceptSession, w).

(** [session->second->Dispatch(message)]: the agent handles the message
    and answers through the session delegates. *)
Definition Dispatch (session : nat) (message : StringBuffer) (w : World)
    : World :=
  let w := emit [SessionDispatch session message] w in
  let '(agent', answers) := session_Dispatch (agent w) session message in
  foldl (λ w answer, SendMessageToFrontend answer.1 answer.2 w)
        (set_agent agent' w) answers.

(** The body of the inner [while] of [DispatchMessages] after the task was
    popped: the [switch] on the action. *)
Definition process (task : Message InspectorAction.t) (w : World) : World :=
  let '(action, id, message) := task in
  match action with
  | InspectorAction.kStartSession =>
      let '(accept, w) := Attach id w in
      Write accept id empty_view w
  | InspectorAction.kStartSessionUnconditionally =>
      (Attach id w).2
  | InspectorAction.kEndSession =>
      let w := set_sessions_ (delete id (sessions_ w)) w in
      if negb (bool_decide (sessions_ w = ∅)) then w   (* continue *)
      else if bool_decide (state_ w = kShutDown)
      then set_state_ kDone w
      else set_state_ kAccepting w
  | InspectorAction.kSendMessage =>
      match sessions_ w !! id with
      | Some (Some session) => Dispatch session message w
      | _ => w
      end
  end.

(** The inner [while]: pop the front of the drain buffer and process it,
    until the buffer is empty. *)
Fixpoint drain (buffer : MessageQueue InspectorAction.t) (w : World) : World :=
  match buffer with
  | [] => set_dispatching_message_queue_ [] w
  | task :: rest =>
      drain rest (process task (set_dispatching_message_queue_ rest w))
  end.

(** One round of the [do ... while]: the value of [had_messages] and the
    world after the inner loop. *)
Definition round (w : World) : bool * World :=
  let w :=
    if bool_decide (dispatching_message_queue_ w = [])
    then
      let '(incoming, dispatching) :=
        SwapBehindLock (incoming_message_queue_ w)
                       (dispatching_message_queue_ w) in
      set_dispatching_message_queue_ dispatching
        (set_incoming_message_queue_ incoming w)
    else w in
  let had_messages := negb (bool_decide (dispatching_message_queue_ w = [])) in
  (had_messages, drain (dispatching_message_queue_ w) w).

End Bridge.

(** ** The I/O thread *)

(** What the I/O thread does in one turn of its event loop: the socket
    server calls a handler of the transport delegate, or the async handle
    [thread_req_] fires. *)
Inductive IoThreadStep : Type :=
| OnStartSession (session_id : Z) (target_id : string)
| OnMessageReceived (session_id : Z) (message : string)
| OnEndSession (session_id : Z)
| OnAsync.

(** What the environment decides when the I/O thread is started. *)
Record StartEnv : Type := {
  thread_create_err : Z;          (* the result of uv_thread_create *)
  server_starts : bool;           (* the result of server.Start() *)
  server_port : Z;                (* server.Port() *)
  first_steps : list IoThreadStep;
    (* the turns of the event loop taken before the runtime thread goes on
       after uv_sem_wait: it may go on as soon as the semaphore is posted
       or some turns later; what the loop does after that is among the
       arrivals of the dispatch and the later calls *)
  io_thread_returned : bool;
    (* when the server failed to start: the I/O thread has returned from
       ThreadMain, after its uv_sem_post, before the runtime thread wakes *)
}.

(** What the environment decides while [Stop] joins the I/O thread. *)
Record StopEnv : Type := {
  last_steps : list IoThreadStep;
    (* the turns of the event loop taken before it runs out of handles *)
  thread_exits : bool;            (* the event loop does run out of handles *)
  join_err : Z;                   (* the result of uv_thread_join *)
}.

Section IoThread.
Context `{Collaborators}.

(** Modelled from the spec: [InspectorIo::ResumeStartup] is defined in the
    header.  The spec has the delegate call it to resume the startup of the
    runtime, which waits on the start barrier; the model records the call
    and posts the semaphore. *)
Definition ResumeStartup (w : World) : World :=
  set_thread_start_sem_ (S (thread_start_sem_ w))
    (emit [ResumeStartupCalled] w).

(** [InspectorIoDelegate::StartSession] *)
Definition StartSession (session_id : Z) (target_id : string)
    (d : InspectorIoDelegate) (w : World) : InspectorIoDelegate * World :=
  let d := {| session_id_ := session_id; waiting_ := waiting_ d |} in
  if waiting_ d
  then (d, PostIncomingMessage InspectorAction.kStartSessionUnconditionally
             session_id EmptyString (emit [AcceptSession session_id] w))
  else (d, PostIncomingMessage InspectorAction.kStartSession session_id
             EmptyString w).

(** [InspectorIoDelegate::MessageReceived] *)
Definition MessageReceived (session_id : Z) (message : string)
    (d : InspectorIoDelegate) (w : World) : InspectorIoDelegate * World :=
  let '(d, w) :=
    if waiting_ d
    then
      match find message resume_command with
      | Some _ =>
          ({| session_id_ := session_id_ d; waiting_ := false |},
           ResumeStartup w)
      | None => (d, w)
      end
    else (d, w) in
  (d, PostIncomingMessage InspectorAction.kSendMessage session_id message w).

(** [InspectorIoDelegate::EndSession] *)
Definition EndSession (session_id : Z)
    (d : InspectorIoDelegate) (w : World) : InspectorIoDelegate * World :=
  (d, PostIncomingMessage InspectorAction.kEndSession session_id EmptyString
        w).

(** One case of the [switch] of [IoThreadAsyncCb]: the calls on the
    transport.  [kKill] falls through into [kStop]. *)
Definition transport_calls (outgoing : Message TransportAction.t) : list Event :=
  let '(action, session_id, message) := outgoing in
  match action with
  | TransportAction.kKill => [TerminateConnections; TransportStop]
  | TransportAction.kStop => [TransportStop]
  | TransportAction.kSendMessage =>
      [TransportSend session_id (StringViewToUtf8 message)]
  | TransportAction.kAcceptSession => [AcceptSession session_id]
  | TransportAction.kDeclineSession => [DeclineSession session_id]
  end.

(** [InspectorIo::IoThreadAsyncCb].  [async->data] is null when no
    transport is attached to the handle. *)
Definition IoThreadAsyncCb (w : World) : World :=
  match delegate w with
  | None => w
  | Some _ =>
      let '(_, outgoing_message_queue) :=
        SwapBehindLock (outgoing_message_queue_ w) [] in
      foldl (λ w outgoing, emit (transport_calls outgoing) w)
            (set_outgoing_message_queue_ [] w) outgoing_message_queue
  end.

(** One turn of the event loop.  Without a server nobody calls the
    delegate. *)
Definition io_step (s : IoThreadStep) (w : World) : World :=
  let handler (f : InspectorIoDelegate → World → InspectorIoDelegate * World)
      : World :=
    match delegate w with
    | None => w
    | Some d => let '(d, w) := f d w in set_delegate (Some d) w
    end in
  match s with
  | OnStartSession session_id target_id =>
      handler (StartSession session_id target_id)
  | OnMessageReceived session_id message =>
      handler (MessageReceived session_id message)
  | OnEndSession session_id => handler (EndSession session_id)
  | OnAsync => IoThreadAsyncCb w
  end.

Definition io_steps (steps : list IoThreadStep) (w : World) : World :=
  foldl (λ w s, io_step s w) w steps.

(** The I/O thread leaves [ThreadMain]: the server goes out of scope and
    with it the delegate, whose destructor tells the bridge. *)
Definition thread_exit (w : World) : World :=
  match delegate w with
  | None => w
  | Some _ => set_delegate None (emit [ServerDone] w)
  end.

(** [InspectorIo::ThreadMain], up to the moment the runtime thread goes on:
    the set-up, and the first turns of the event loop.  When the server
    fails to start the thread posts the semaphore and only then returns, so
    the runtime thread may go on before the server and its delegate are
    destroyed; the environment says which comes first, and [thread_exit] is
    the step that is still to come when the runtime thread was first. *)
Definition ThreadMain (env : StartEnv) (w : World) : World :=
  let w :=
    set_delegate
      (Some {| session_id_ := 0; waiting_ := wait_for_connect_ w |}) w in
  if negb (server_starts env)
  then
    let w := set_state_ kError w in
    let w := set_thread_start_sem_ (S (thread_start_sem_ w)) w in
    if io_thread_returned env then thread_exit w else w
  else
    let w := set_port_ (server_port env) w in
    let w :=
      if negb (wait_for_connect_ w)
      then set_thread_start_sem_ (S (thread_start_sem_ w)) w
      else w in
    io_steps (first_steps env) w.

End IoThread.

(** ** The entry points of the runtime thread *)

Section EntryPoints.
Context `{Collaborators}.

(** The [do ... while (had_messages)] of [DispatchMessages].  While the
    runtime thread works through a round the I/O thread goes on: [arrivals]
    lists, round by round, the turns its event loop takes meanwhile, and
    the model schedules them at the end of the round.  [fuel] bounds the
    number of rounds that are repeated. *)
Fixpoint do_while (fuel : nat) (arrivals : list (list IoThreadStep))
    (w : World) : World :=
  let '(had_messages, w) := round w in
  if had_messages
  then
    match fuel with
    | O => w
    | S fuel' =>
        do_while fuel' (tail arrivals) (io_steps (default [] (head arrivals)) w)
    end
  else w.

(** [InspectorIo::DispatchMessages].  Once the I/O thread is quiet, two
    more rounds find work at most (what was left in the drain buffer, then
    what was left in the incoming queue), so the fuel is never used up: see
    [DispatchMessages_drained]. *)
Definition DispatchMessages (arrivals : list (list IoThreadStep)) (w : World)
    : World :=
  if dispatching_messages_ w then w
  else
    let w := set_dispatching_messages_ true w in
    let w := do_while (length arrivals + 2) arrivals w in
    set_dispatching_messages_ false w.

(** [InspectorIo::Start].  [uv_sem_wait] returns when the semaphore was
    posted; nobody else posts it, so otherwise the call waits for ever. *)
Definition Start (env : StartEnv) (arrivals : list (list IoThreadStep))
    (w : World) : Outcome (bool * World) :=
  CHECK (bool_decide (state_ w = kNew));;
  CHECK (bool_decide (thread_create_err env = 0%Z));;
  let w := ThreadMain env w in
  match thread_start_sem_ w with
  | O => Blocks
  | S n =>
      let w := set_thread_start_sem_ n w in
      if bool_decide (state_ w = kError) then Returns (false, w)
      else
        let w := set_state_ kAccepting w in
        let w := if wait_for_connect_ w then DispatchMessages arrivals w
                 else w in
        Returns (true, w)
  end.

(** [InspectorIo::Stop].  During [uv_thread_join] the I/O thread takes its
    last turns and leaves; after it nothing arrives any more. *)
Definition Stop (env : StopEnv) (w : World) : Outcome World :=
  CHECK (implb (bool_decide (sessions_ w = ∅))
               (bool_decide (state_ w = kAccepting)));;
  let w := Write TransportAction.kKill 0 empty_view w in
  let w := io_steps (last_steps env) w in
  if negb (thread_exits env) then Blocks
  else
    let w := thread_exit w in
    CHECK (bool_decide (join_err env = 0%Z));;
    let w := set_state_ kShutDown w in
    Returns (DispatchMessages [] w).

(** [InspectorIo::WaitForDisconnect] *)
Definition WaitForDisconnect (w : World) : World :=
  let w := if bool_decide (state_ w = kAccepting) then set_state_ kDone w
           else w in
  if negb (bool_decide (sessions_ w = ∅))
  then
    let w := set_state_ kShutDown w in
    let w := Write TransportAction.kStop 0 empty_view w in
    emit [Stderr waiting_for_disconnect; Fflush] w
  else w.

(** [InspectorIo::WaitForFrontendEvent].  [meanwhile] lists the turns the
    I/O thread takes while the runtime thread waits on the condition
    variable.  The wait ends when one of them broadcasts.  It also ends,
    and [woken] says whether it does, on a broadcast the I/O thread still
    owed for a task appended before the call ([PostIncomingMessage] appends
    under one lock and broadcasts under a second, and the runtime thread
    may have drained the task in between), or on a spurious wakeup, against
    which the single [Wait] under [if] does not guard. *)
Definition WaitForFrontendEvent (meanwhile : list IoThreadStep) (woken : bool)
    (w : World) : Outcome (bool * World) :=
  let w := set_dispatching_messages_ false w in
  if bool_decide (sessions_ w = ∅) then Returns (false, w)
  else if bool_decide (dispatching_message_queue_ w = [])
          && bool_decide (incoming_message_queue_ w = [])
  then
    let w' := io_steps meanwhile w in
    if bool_decide (Broadcast ∈ drop (length (trace w)) (trace w')) || woken
    then Returns (true, w')
    else Blocks
  else Returns (true, w).

(** The bridge as the constructor leaves it. *)
Definition InspectorIo_new (wait_for_connect : bool) (agent0 : AgentState)
    : World :=
  {| state_ := kNew; sessions_ := ∅; incoming_message_queue_ := [];
     dispatching_message_queue_ := []; outgoing_message_queue_ := [];
     dispatching_messages_ := false; wait_for_connect_ := wait_for_connect;
     port_ := (-1)%Z; thread_start_sem_ := 0; delegate := None;
     agent := agent0; trace := [] |}.

End EntryPoints.

(** ** Vocabulary of the properties *)

(** [needle] occurs in [haystack]. *)
Definition contains (haystack needle : string) : Prop :=
  ∃ before after, haystack = before +:+ needle +:+ after.

(** The method name without the quotes around it. *)
Definition bare_resume_command : string := "Runtime.runIfWaitingForDebugger".

(** How many events of a trace satisfy [p]. *)
Definition occurrences (p : Event → bool) (t : list Event) : nat :=
  length (List.filter p t).

Definition is_event (e : Event) : Event → bool := λ e', bool_decide (e' = e).

(** Wakeups of the I/O thread and of the runtime thread. *)
Definition io_wakeups : list Event → nat := occurrences (is_event IoAsyncSend).
Definition main_wakeups : list Event → nat := occurrences (is_event MainAsyncSend).

(** The two other ways [PostIncomingMessage] wakes the runtime thread: the
    task for the foreground thread and the interrupt request. *)
Definition foreground_tasks : list Event → nat :=
  occurrences (is_event CallOnForegroundThread).
Definition interrupt_requests : list Event → nat :=
  occurrences (is_event RequestInterrupt).

(** Broadcasts of the condition variable. *)
Definition broadcasts : list Event → nat := occurrences (is_event Broadcast).

(** Calls of [AppendMessage] on a queue, and those among them that found
    the queue empty. *)
Definition appends (q : QueueName) : list Event → nat :=
  occurrences (λ e, match e with
                    | Appended q' _ => bool_decide (q' = q)
                    | _ => false
                    end).
Definition appends_on_empty (q : QueueName) : list Event → nat :=
  occurrences (is_event (Appended q true)).

(** How often ["Debugger attached.\n"] was printed. *)
Definition attach_notices : list Event → nat :=
  occurrences (is_event (Stderr debugger_attached)).

(** How often the delegate called [ResumeStartup]. *)
Definition resumes : list Event → nat :=
  occurrences (is_event ResumeStartupCalled).

Definition is_start (task : Message InspectorAction.t) : bool :=
  match task.1.1 with
  | InspectorAction.kStartSession
  | InspectorAction.kStartSessionUnconditionally => true
  | _ => false
  end.

Definition is_kill (m : Message TransportAction.t) : bool :=
  bool_decide (m.1.1 = TransportAction.kKill).

(** The session table as far as its emptiness goes: the ids in it.  One
    task changes the state and the ids as follows. *)
Definition abstract_step (task : Message InspectorAction.t)
    (si : State * gset Z) : State * gset Z :=
  let '(state, ids) := si in
  let '(action, id, _) := task in
  match action with
  | InspectorAction.kStartSession
  | InspectorAction.kStartSessionUnconditionally => (state, {[id]} ∪ ids)
  | InspectorAction.kEndSession =>
      if bool_decide (ids ∖ {[id]} = ∅)
      then (if bool_decide (state = kShutDown) then kDone else kAccepting,
            ids ∖ {[id]})
      else (state, ids ∖ {[id]})
  | InspectorAction.kSendMessage => (state, ids)
  end.

(** A list of tasks, one after the other. *)
Definition abstract_run (tasks : MessageQueue InspectorAction.t)
    (v : State * gset Z) : State * gset Z :=
  foldl (λ v task, abstract_step task v) v tasks.

(** Some [EndSession] among [tasks], processed in order with the sessions
    [ids] in the table at first, leaves the table empty. *)
Fixpoint table_runs_empty (tasks : MessageQueue InspectorAction.t)
    (ids : gset Z) : bool :=
  match tasks with
  | [] => false
  | task :: rest =>
      bool_decide (task.1.1 = InspectorAction.kEndSession)
      && bool_decide (ids ∖ {[task.1.2]} = ∅)
      || table_runs_empty rest (abstract_step task (kNew, ids)).2
  end.

(** Events that are neither a wakeup, nor an append, nor a call on the
    transport. *)
Definition bookkeeping (e : Event) : bool :=
  match e with
  | Stderr _ | Fflush | AgentConnect _ | SessionDispatch _ _
  | ResumeStartupCalled | ServerDone | AcceptSession _ => true
  | _ => false
  end.

(** The wakeups as the code issues them: the runtime thread is woken, in
    each of the three ways, for every append that found the incoming queue
    empty; the condition variable is broadcast for every append to the
    incoming queue; the I/O thread is woken for every append to the outgoing
    queue. *)
Definition wakeups_as_coded (e : list Event) : Prop :=
  main_wakeups e = appends_on_empty Incoming e
  ∧ io_wakeups e = appends Outgoing e
  ∧ foreground_tasks e = appends_on_empty Incoming e
  ∧ interrupt_requests e = appends_on_empty Incoming e
  ∧ broadcasts e = appends Incoming e.

Section Vocabulary.
Context `{Collaborators}.

(** The events between two worlds of one run. *)
Definition since (w w' : World) : list Event :=
  drop (length (trace w)) (trace w').

(** The delegate still waits for the resume command. *)
Definition still_waiting (w : World) : bool :=
  match delegate w with
  | Some d => waiting_ d
  | None => false
  end.

(** Invariant 3 of the specification. *)
Definition accepting_means_no_session (w : World) : Prop :=
  state_ w = kAccepting → sessions_ w = ∅.

(** The [Kill] actions written so far: those the I/O thread has applied
    to the transport and those still in the outgoing queue. *)
Definition kills_seen (w : World) : nat :=
  occurrences (is_event TerminateConnections) (trace w)
  + length (List.filter is_kill (outgoing_message_queue_ w)).

(** A handler of the delegate resumes the startup at most once, and only
    if the delegate was still waiting; after it has, the delegate waits no
    more. *)
Definition resumes_once (d : InspectorIoDelegate) (w : World)
    (r : InspectorIoDelegate * World) : Prop :=
  ∃ e, trace r.2 = trace w ++ e
       ∧ resumes e ≤ (if waiting_ d then 1 else 0)
       ∧ (waiting_ r.1 = true → waiting_ d = true ∧ resumes e = 0).

(** The steps every call on the bridge is made of.  [Kill] is written by
    [Stop] alone and is not among them. *)
Inductive atom : World → World → Prop :=
| atom_Write action session_id message w :
    action ≠ TransportAction.kKill →
    atom w (Write action session_id message w)
| atom_PostIncomingMessage action session_id message w :
    atom w (PostIncomingMessage action session_id message w)
| atom_IoThreadAsyncCb w : atom w (IoThreadAsyncCb w)
| atom_emit es w : forallb bookkeeping es = true → atom w (emit es w)
| atom_state v w : v ≠ kNew → atom w (set_state_ v w)
| atom_sessions v w : atom w (set_sessions_ v w)
| atom_agent v w : atom w (set_agent v w)
| atom_swap w :
    dispatching_message_queue_ w = [] →
    atom w (set_dispatching_message_queue_ (incoming_message_queue_ w)
              (set_incoming_message_queue_ (dispatching_message_queue_ w) w))
| atom_pop v w : atom w (set_dispatching_message_queue_ v w)
| atom_flag v w : atom w (set_dispatching_messages_ v w)
| atom_sem v w : atom w (set_thread_start_sem_ v w)
| atom_delegate v w : atom w (set_delegate v w)
| atom_port v w : atom w (set_port_ v w).

(** The trace of [w'] is the trace of [w] and then events that satisfy
    [P]. *)
Definition extends_with (P : list Event → Prop) (w w' : World) : Prop :=
  ∃ e, trace w' = trace w ++ e ∧ P e.

(** What the runtime thread leaves alone while it processes a task. *)
Definition runtime_frame (w w' : World) : Prop :=
  incoming_message_queue_ w' = incoming_message_queue_ w
  ∧ dispatching_message_queue_ w' = dispatching_message_queue_ w
  ∧ dispatching_messages_ w' = dispatching_messages_ w
  ∧ delegate w' = delegate w
  ∧ thread_start_sem_ w' = thread_start_sem_ w
  ∧ wait_for_connect_ w' = wait_for_connect_ w.

(** What the I/O thread leaves alone. *)
Definition io_frame (w w' : World) : Prop :=
  state_ w' = state_ w
  ∧ sessions_ w' = sessions_ w
  ∧ dispatching_message_queue_ w' = dispatching_message_queue_ w
  ∧ dispatching_messages_ w' = dispatching_messages_ w
  ∧ agent w' = agent w
  ∧ wait_for_connect_ w' = wait_for_connect_ w.

(** The state and the ids of the session table. *)
Definition view (w : World) : State * gset Z := (state_ w, dom (sessions_ w)).

(** How many of the drain buffer and the incoming queue hold a task. *)
Definition queue_load (w : World) : nat :=
  (if bool_decide (dispatching_message_queue_ w = []) then 0 else 1)
  + (if bool_decide (incoming_message_queue_ w = []) then 0 else 1).

(** The tasks a round works through. *)
Definition round_tasks (w : World) : MessageQueue InspectorAction.t :=
  if bool_decide (dispatching_message_queue_ w = [])
  then incoming_message_queue_ w
  else dispatching_message_queue_ w.

(** The state a call returns in, if it returns. *)
Definition final_state (o : Outcome World) : option State :=
  match o with
  | Returns w => Some (state_ w)
  | _ => None
  end.

(** The calls on a running bridge that push to a queue or take from one. *)
Inductive Call : Type :=
| CallWrite (action : TransportAction.t) (session_id : Z)
            (message : StringBuffer)
| CallPostIncomingMessage (action : InspectorAction.t) (session_id : Z)
                          (message : string)
| CallIoThread (steps : list IoThreadStep)
| CallDispatchMessages (arrivals : list (list IoThreadStep))
| CallWaitForDisconnect.

Definition call (c : Call) (w : World) : World :=
  match c with
  | CallWrite action session_id message => Write action session_id message w
  | CallPostIncomingMessage action session_id message =>
      PostIncomingMessage action session_id message w
  | CallIoThread steps => io_steps steps w
  | CallDispatchMessages arrivals => DispatchMessages arrivals w
  | CallWaitForDisconnect => WaitForDisconnect w
  end.

Definition calls (cs : list Call) (w : World) : World :=
  foldl (λ w c, call c w) w cs.

End Vocabulary.

(** ** A runtime agent to run the model on

    Sessions are numbered in the order they are connected; a session answers
    a message by sending it back through the delegate whose id is the
    number of the session.  Strings are converted character by character. *)
#[export] Instance example_collaborators : Collaborators := {|
  AgentState := nat;
  agent_Connect := λ count _, (S count, Some count);
  session_Dispatch := λ count session message,
    (count, [(Z.of_nat session, message)]);
  Utf8ToStringView := λ s,
    (λ c, Z.of_nat (nat_of_ascii c)) <$> list_ascii_of_string s;
  StringViewToUtf8 := λ v,
    string_of_list_ascii ((λ u, ascii_of_nat (Z.to_nat u)) <$> v);
|}.

(** The bridge started, with one session attached, and stopped while the
    session ends. *)
Definition example_start_env : StartEnv :=
  {| thread_create_err := 0; server_starts := true; server_port := 9229;
     first_steps := []; io_thread_returned := false |}.

(** The server fails to bind; the I/O thread has returned when the runtime
    thread wakes, or it has not. *)
Definition example_failed_env (returned : bool) : StartEnv :=
  {| thread_create_err := 0; server_starts := false; server_port := 0;
     first_steps := []; io_thread_returned := returned |}.

Definition example_started : World :=
  match Start example_start_env [] (InspectorIo_new false 0%nat) with
  | Returns (_, w) => w
  | _ => InspectorIo_new false 0%nat
  end.

Definition example_attached : World :=
  DispatchMessages []
    (io_step (OnStartSession 1 EmptyString) example_started).

Definition example_stop_env : StopEnv :=
  {| last_steps := [OnAsync; OnEndSession 1]; thread_exits := true;
     join_err := 0 |}.

Definition example_stopped : World :=
  match Stop example_stop_env example_attached with
  | Returns w => w
  | _ => example_attached
  end.

Definition example_waiting_delegate : InspectorIoDelegate :=
  {| session_id_ := 7; waiting_ := true |}.

(** ** More of the code, and the vocabulary of its properties *)

Section MoreCode.
Context `{Collaborators}.

(** The tasks of a list processed one after the other, with no queue
    around them. *)
Definition run_tasks (tasks : MessageQueue InspectorAction.t) (w : World)
    : World :=
  foldl (λ w task, process task w) w tasks.

(** Two worlds agree on everything a task reads or writes: the state, the
    session table, the outgoing queue, the agent and the trace. *)
Definition same_core (w1 w2 : World) : Prop :=
  state_ w1 = state_ w2
  ∧ sessions_ w1 = sessions_ w2
  ∧ outgoing_message_queue_ w1 = outgoing_message_queue_ w2
  ∧ agent w1 = agent w2
  ∧ trace w1 = trace w2.

(** What the delegate posts for a call of [PostIncomingMessage]. *)
Definition posted (p : InspectorAction.t * Z * string)
    : Message InspectorAction.t :=
  (p.1.1, p.1.2, Utf8ToStringView p.2).

Definition post_all (posts : list (InspectorAction.t * Z * string))
    (w : World) : World :=
  foldl (λ w p, PostIncomingMessage p.1.1 p.1.2 p.2 w) w posts.

(** [InterruptCallback], [DispatchMessagesTask::Run] and
    [MainThreadReqAsyncCb]: each asks the agent for its bridge, which is
    null ([io_attached = false]) once the bridge is gone, and dispatches. *)
Definition InterruptCallback (io_attached : bool)
    (arrivals : list (list IoThreadStep)) (w : World) : World :=
  if io_attached then DispatchMessages arrivals w else w.

Definition DispatchMessagesTask_Run (io_attached : bool)
    (arrivals : list (list IoThreadStep)) (w : World) : World :=
  if io_attached then DispatchMessages arrivals w else w.

Definition MainThreadReqAsyncCb (io_attached : bool)
    (arrivals : list (list IoThreadStep)) (w : World) : World :=
  if io_attached then DispatchMessages arrivals w else w.

(** Several calls of [Write], one after the other. *)
Definition write_all (writes : list (Message TransportAction.t)) (w : World)
    : World :=
  foldl (λ w m, Write m.1.1 m.1.2 m.2 w) w writes.

(** The call writes a [Kill]. *)
Definition writes_kill (c : Call) : bool :=
  match c with
  | CallWrite action _ _ => bool_decide (action = TransportAction.kKill)
  | _ => false
  end.
End MoreCode.
(** Every append to the incoming queue is followed by a broadcast. *)
Definition broadcast_per_append (e : list Event) : Prop :=
  broadcasts e = appends Incoming e.

(** The wakeup of the I/O thread, as opposed to an event of the server. *)
Definition is_async (s : IoThreadStep) : bool :=
  match s with
  | OnAsync => true
  | _ => false
  end.

Section DelegateVocabulary.
Context `{Collaborators}.

(** The task a handler of the delegate posts for an event of the server. *)
Inductive posts_as : IoThreadStep → Message InspectorAction.t → Prop :=
| posts_start session_id target_id action :
    action = InspectorAction.kStartSession
    ∨ action = InspectorAction.kStartSessionUnconditionally →
    posts_as (OnStartSession session_id target_id)
             (action, session_id, Utf8ToStringView EmptyString)
| posts_message session_id message :
    posts_as (OnMessageReceived session_id message)
             (InspectorAction.kSendMessage, session_id,
              Utf8ToStringView message)
| posts_end session_id :
    posts_as (OnEndSession session_id)
             (InspectorAction.kEndSession, session_id,
              Utf8ToStringView EmptyString).
End DelegateVocabulary.

(** * Properties *)

(** ** [GenerateID] *)

Section UuidFacts.
Import Uuid.

Lemma matches_app (p1 p2 : list CharClass) (s1 s2 : string) :
  matches p1 s1 = true → matches p2 s2 = true →
  matches (p1 ++ p2) (s1 +:+ s2) = true.
Proof.
  revert s1. induction p1 as [|k p1 IH]; intros [|c s1]; simpl; try done.
  intros [Hk Hs]%andb_prop ?. rewrite Hk. simpl. by apply IH.
Qed.

(** A 16-bit word prints as its four nibbles. *)
Lemma fmt_04x_word (v : Z) :
  (0 ≤ v < 65536)%Z →
  fmt_04x v =
    String (hex_digit (v / 4096)) (String (hex_digit (v / 256 mod 16))
      (String (hex_digit (v / 16 mod 16)) (String (hex_digit (v mod 16))
        EmptyString))).
Proof.
  intros Hv. unfold fmt_04x. rewrite (Z.mod_small v) by lia.
  cbn [hex_digits]. rewrite !Z.div_div by lia.
  change (16 * 16 * 16 * 16)%Z with 65536%Z.
  change (16 * 16 * 16)%Z with 4096%Z. change (16 * 16)%Z with 256%Z.
  destruct (Z.eqb_spec (v / 16) 0) as [H1|H1].
  { replace (v / 4096)%Z with 0%Z by (Z.div_mod_to_equations; lia).
    replace (v / 256)%Z with 0%Z by (Z.div_mod_to_equations; lia).
    rewrite H1. reflexivity. }
  destruct (Z.eqb_spec (v / 256) 0) as [H2|H2].
  { replace (v / 4096)%Z with 0%Z by (Z.div_mod_to_equations; lia).
    rewrite H2. reflexivity. }
  destruct (Z.eqb_spec (v / 4096) 0) as [H3|H3].
  { rewrite H3. reflexivity. }
  replace (v / 4096 mod 16)%Z with (v / 4096)%Z
    by (Z.div_mod_to_equations; lia).
  destruct (Z.eqb_spec (v / 65536) 0) as [H4|H4]; [reflexivity|].
  exfalso. Z.div_mod_to_equations. lia.
Qed.

Lemma hex_digit_lower (d : Z) :
  (0 ≤ d < 16)%Z → is_lower_hex (hex_digit d) = true.
Proof.
  intros Hd.
  assert (Hcases : Exists (λ k, d = Z.of_nat k) (seq 0 16)).
  { apply Exists_exists. exists (Z.to_nat d). split; [apply elem_of_seq|]; lia. }
  repeat (apply Exists_cons in Hcases as [->|Hcases]; [reflexivity|]).
  by apply Exists_nil in Hcases.
Qed.

Lemma nibbles_range (v : Z) :
  (0 ≤ v < 65536)%Z →
  (0 ≤ v / 4096 < 16 ∧ 0 ≤ v / 256 mod 16 < 16 ∧ 0 ≤ v / 16 mod 16 < 16
   ∧ 0 ≤ v mod 16 < 16)%Z.
Proof. intros Hv. Z.div_mod_to_equations. lia. Qed.

Lemma plain_word (v : Z) :
  (0 ≤ v < 65536)%Z → matches hex4 (fmt_04x v) = true.
Proof.
  intros Hv. rewrite fmt_04x_word by done.
  destruct (nibbles_range v Hv) as (H3 & H2 & H1 & H0).
  cbn [matches hex4 class_ok]. by rewrite !hex_digit_lower.
Qed.

(** Masking to the low [n] bits and setting a bit above them adds. *)
Lemma mask_then_set (v : Z) (n : Z) (bit : Z) :
  (0 ≤ n)%Z → Z.land (Z.ones n) bit = 0%Z →
  Z.lor (Z.land v (Z.ones n)) bit = (v mod 2 ^ n + bit)%Z.
Proof.
  intros Hn Hdisjoint.
  assert (Hnocarry : Z.land (Z.land v (Z.ones n)) bit = 0%Z).
  { by rewrite <- Z.land_assoc, Hdisjoint, Z.land_0_r. }
  rewrite <- Z.lxor_lor, <- Z.add_nocarry_lxor by done.
  by rewrite Z.land_ones.
Qed.

Lemma version_word (v : Z) :
  matches version4 (fmt_04x (Z.lor (Z.land v 0x0fff) 0x4000)) = true.
Proof.
  change 0x0fff%Z with (Z.ones 12).
  rewrite (mask_then_set v 12 0x4000) by done.
  pose proof (Z.mod_pos_bound v (2 ^ 12) eq_refl) as Hlow.
  set (x := (v mod 2 ^ 12)%Z) in *.
  assert (Hv : (0 ≤ x + 0x4000 < 65536)%Z) by lia.
  rewrite fmt_04x_word by done.
  destruct (nibbles_range _ Hv) as (_ & H2 & H1 & H0).
  replace ((x + 0x4000) / 4096)%Z with 4%Z by (Z.div_mod_to_equations; lia).
  cbn [matches version4 class_ok]. by rewrite !hex_digit_lower.
Qed.

Lemma variant_word (v : Z) :
  matches variant4 (fmt_04x (Z.lor (Z.land v 0x3fff) 0x8000)) = true.
Proof.
  change 0x3fff%Z with (Z.ones 14).
  rewrite (mask_then_set v 14 0x8000) by done.
  pose proof (Z.mod_pos_bound v (2 ^ 14) eq_refl) as Hlow.
  set (x := (v mod 2 ^ 14)%Z) in *.
  assert (Hv : (0 ≤ x + 0x8000 < 65536)%Z) by lia.
  rewrite fmt_04x_word by done.
  destruct (nibbles_range _ Hv) as (_ & H2 & H1 & H0).
  assert (Htop : Exists (λ k, (x + 0x8000) / 4096 = k)%Z [8; 9; 10; 11]%Z).
  { rewrite !Exists_cons. Z.div_mod_to_equations. lia. }
  cbn [matches variant4 class_ok]. rewrite !hex_digit_lower by done.
  repeat (apply Exists_cons in Htop as [->|Htop]; [reflexivity|]).
  by apply Exists_nil in Htop.
Qed.

Lemma two_bytes_range (lo hi : Z) :
  (0 ≤ lo < 256)%Z → (0 ≤ hi < 256)%Z →
  (0 ≤ Z.lor lo (Z.shiftl hi 8) < 65536)%Z.
Proof.
  intros Hlo Hhi.
  assert (Hdisjoint : Z.land lo (Z.shiftl hi 8) = 0%Z).
  { apply Z.bits_inj'. intros k Hk. rewrite Z.land_spec, Z.bits_0.
    destruct (Z.lt_ge_cases k 8).
    - by rewrite Z.shiftl_spec_low, andb_false_r.
    - rewrite (Z.bits_above_log2 lo k); [done|lia|].
      destruct (Z.eq_dec lo 0%Z) as [->|?]; [simpl; lia|].
      apply Z.log2_lt_pow2; [lia|].
      apply Z.lt_le_trans with (2 ^ 8)%Z; [lia|].
      apply Z.pow_le_mono_r; lia. }
  rewrite <- Z.lxor_lor, <- Z.add_nocarry_lxor by done.
  rewrite Z.shiftl_mul_pow2 by lia. lia.
Qed.

Lemma byte_range (b : Byte.byte) : (0 ≤ Z.of_N (Byte.to_N b) < 256)%Z.
Proof. pose proof (Byte.to_N_bounded b). lia. Qed.

Lemma buffer_at_range (mem : list Byte.byte) (i : nat) :
  (0 ≤ buffer_at mem i < 65536)%Z.
Proof. apply two_bytes_range; apply byte_range. Qed.

Lemma dash_matches : matches [Lit "-"%char] dash = true.
Proof. reflexivity. Qed.

(** C9. Every identifier [GenerateID] returns is a version-4 UUID in the
    canonical form: whatever sixteen bytes the entropy source delivers, the
    call returns a string that matches
    [^[0-9a-f]{8}-[0-9a-f]{4}-4[0-9a-f]{3}-[89ab][0-9a-f]{3}-[0-9a-f]{12}$]. *)
Theorem GenerateID_uuid_v4 (mem : list Byte.byte) :
  ∃ uuid, GenerateID (Some mem) = Returns uuid ∧ uuid_v4_shape uuid = true.
Proof.
  exists (format_uuid mem). split; [reflexivity|].
  unfold uuid_v4_shape, uuid_v4_pattern, format_uuid.
  repeat first
    [ apply matches_app
    | apply dash_matches
    | apply plain_word, buffer_at_range
    | apply version_word
    | apply variant_word ].
Qed.

End UuidFacts.

(** ** One task of the incoming queue *)

Section ProcessFacts.
Context `{Collaborators}.

Lemma Write_outgoing action session_id message (w : World) :
  outgoing_message_queue_ (Write action session_id message w)
  = outgoing_message_queue_ w ++ [(action, session_id, message)].
Proof. reflexivity. Qed.

Lemma Write_trace action session_id message (w : World) :
  trace (Write action session_id message w)
  = trace w ++ [Appended Outgoing (bool_decide (outgoing_message_queue_ w = []));
                IoAsyncSend].
Proof. unfold Write. simpl. by rewrite <- app_assoc. Qed.

(** C7. Processing [StartSession(sid)] connects to the runtime agent once,
    stores the session it returns at [sessions_[sid]] and writes exactly one
    [AcceptSession(sid)] to the outgoing queue; processing
    [StartSessionUnconditionally(sid)] connects and stores in the same way
    and leaves the outgoing queue as it was. *)
Theorem start_session_accepts (sid : Z) (payload : StringBuffer) (w : World) :
  let connected := agent_Connect (agent w) sid in
  let w1 := process (InspectorAction.kStartSession, sid, payload) w in
  let w2 :=
    process (InspectorAction.kStartSessionUnconditionally, sid, payload) w in
  (agent w1 = connected.1
   ∧ sessions_ w1 = <[sid := connected.2]> (sessions_ w)
   ∧ outgoing_message_queue_ w1
     = outgoing_message_queue_ w
       ++ [(TransportAction.kAcceptSession, sid, empty_view)]
   ∧ since w w1
     = [Stderr debugger_attached; AgentConnect sid;
        Appended Outgoing (bool_decide (outgoing_message_queue_ w = []));
        IoAsyncSend])
  ∧ (agent w2 = connected.1
     ∧ sessions_ w2 = <[sid := connected.2]> (sessions_ w)
     ∧ outgoing_message_queue_ w2 = outgoing_message_queue_ w
     ∧ since w w2 = [Stderr debugger_attached; AgentConnect sid]).
Proof.
  unfold since, process, Attach. simpl.
  destruct (agent_Connect (agent w) sid) as [agent' session].
  simpl. rewrite <- !app_assoc. simpl.
  by rewrite !drop_app_length.
Qed.

(** C6. A processed [EndSession] that leaves the session table empty moves
    the bridge to [kDone] if it was in [kShutDown] and to [kAccepting]
    otherwise: the state afterwards is one of the two, and it is [kDone]
    exactly when the state before was [kShutDown]. *)
Theorem end_session_state (sid : Z) (payload : StringBuffer) (w : World) :
  delete sid (sessions_ w) = ∅ →
  let w' := process (InspectorAction.kEndSession, sid, payload) w in
  sessions_ w' = ∅
  ∧ state_ w' = (if decide (state_ w = kShutDown) then kDone else kAccepting)
  ∧ (state_ w' = kAccepting ∨ state_ w' = kDone)
  ∧ (state_ w' = kDone ↔ state_ w = kShutDown).
Proof.
  intros Hempty. simpl. rewrite Hempty.
  rewrite bool_decide_eq_true_2 by done. simpl.
  destruct (decide (state_ w = kShutDown)) as [Hs|Hs].
  - rewrite bool_decide_eq_true_2 by done. simpl. naive_solver.
  - rewrite bool_decide_eq_false_2 by done. simpl. naive_solver.
Qed.

(** C8. A processed [SendMessage(sid, payload)] whose session is not in the
    table, or is there as a null pointer, changes nothing at all: no call
    of the agent, nothing written, table and state as before.  If a session
    is stored at [sid], the payload is dispatched to it. *)
Theorem send_to_vanished_session_dropped (sid : Z) (payload : StringBuffer)
    (w : World) :
  let w' := process (InspectorAction.kSendMessage, sid, payload) w in
  (sessions_ w !! sid = None ∨ sessions_ w !! sid = Some None → w' = w)
  ∧ (∀ session, sessions_ w !! sid = Some (Some session) →
       w' = Dispatch session payload w
       ∧ (∃ writes, since w w' = SessionDispatch session payload :: writes)
       ∧ agent w' = (session_Dispatch (agent w) session payload).1
       ∧ sessions_ w' = sessions_ w ∧ state_ w' = state_ w).
Proof.
  simpl. split.
  - by intros [-> | ->].
  - intros session ->. split; [done|].
    unfold Dispatch, since. simpl.
    destruct (session_Dispatch (agent w) session payload) as [agent' answers].
    simpl.
    assert (Hfold : ∀ answers (w0 : World),
      let w1 := foldl (λ w answer, SendMessageToFrontend answer.1 answer.2 w)
                      w0 answers in
      (∃ writes, trace w1 = trace w0 ++ writes)
      ∧ agent w1 = agent w0 ∧ sessions_ w1 = sessions_ w0
      ∧ state_ w1 = state_ w0).
    { clear. induction answers as [|a answers IH]; intros w0; simpl.
      - split; [|done]. exists []. by rewrite app_nil_r.
      - destruct (IH (SendMessageToFrontend a.1 a.2 w0))
          as ((writes & Ht) & Ha & Hs & Hst).
        split; [|by rewrite Ha, Hs, Hst].
        eexists. rewrite Ht. unfold SendMessageToFrontend.
        rewrite Write_trace, <- app_assoc. reflexivity. }
    destruct (Hfold answers
      (set_agent agent' (emit [SessionDispatch session payload] w)))
      as ((writes & Ht) & Ha & Hs & Hst).
    simpl in *. rewrite Ht, Ha, Hs, Hst.
    split; [|done]. exists writes.
    by rewrite <- app_assoc, drop_app_length.
Qed.

End ProcessFacts.

(** ** Searching a string *)

Lemma starts_with_spec (s needle : string) :
  starts_with s needle = true ↔ ∃ after, s = needle +:+ after.
Proof.
  revert s. induction needle as [|c needle IH]; intros s; simpl.
  - split; [by exists s|done].
  - destruct s as [|c' s]; simpl.
    + split; [done|]. by intros [? ?].
    + rewrite andb_true_iff, Ascii.eqb_eq, IH. split.
      * intros [-> [after ->]]. by exists after.
      * intros [after [= -> ->]]. split; [done|]. by exists after.
Qed.

Lemma find_from_contains (pos : nat) (haystack needle : string) :
  is_Some (find_from pos haystack needle) ↔ contains haystack needle.
Proof.
  revert pos. induction haystack as [|c rest IH]; intros pos; simpl.
  - destruct (starts_with EmptyString needle) eqn:Hs.
    + split; [|by eexists]. intros _.
      apply starts_with_spec in Hs as [after Hs].
      by exists EmptyString, after.
    + split; [by intros [? ?]|]. intros [before [after Heq]].
      destruct before; [|done]. simpl in Heq.
      assert (starts_with EmptyString needle = true) as Hs'
        by (apply starts_with_spec; by exists after).
      congruence.
  - destruct (starts_with (String c rest) needle) eqn:Hs.
    + split; [|by eexists]. intros _.
      apply starts_with_spec in Hs as [after Hs].
      by exists EmptyString, after.
    + rewrite IH. split.
      * intros [before [after ->]]. by exists (String c before), after.
      * intros [before [after Heq]]. destruct before as [|c' before].
        -- simpl in Heq.
           assert (starts_with (String c rest) needle = true) as Hs'
             by (apply starts_with_spec; by exists after).
           congruence.
        -- simpl in Heq. injection Heq as -> ->. by exists before, after.
Qed.

Lemma find_contains (haystack needle : string) :
  is_Some (find haystack needle) ↔ contains haystack needle.
Proof. apply find_from_contains. Qed.

(** ** Traces *)

Lemma occurrences_app (p : Event → bool) (t1 t2 : list Event) :
  occurrences p (t1 ++ t2) = occurrences p t1 + occurrences p t2.
Proof. unfold occurrences. by rewrite List.filter_app, length_app. Qed.

Section TraceFacts.
Context `{Collaborators}.

Lemma since_extended (w w' : World) (d : list Event) :
  trace w' = trace w ++ d → since w w' = d.
Proof. intros Ht. unfold since. by rewrite Ht, drop_app_length. Qed.

Lemma since_same (w : World) : since w w = [].
Proof. apply since_extended. by rewrite app_nil_r. Qed.

Lemma PostIncomingMessage_trace action session_id message (w : World) :
  trace (PostIncomingMessage action session_id message w)
  = trace w
    ++ Appended Incoming (bool_decide (incoming_message_queue_ w = []))
       :: (if bool_decide (incoming_message_queue_ w = [])
           then [CallOnForegroundThread; RequestInterrupt; MainAsyncSend]
           else [])
    ++ [Broadcast].
Proof.
  unfold PostIncomingMessage. simpl.
  destruct (bool_decide (incoming_message_queue_ w = []));
    simpl; by rewrite <- !app_assoc.
Qed.

Lemma PostIncomingMessage_incoming action session_id message (w : World) :
  incoming_message_queue_ (PostIncomingMessage action session_id message w)
  = incoming_message_queue_ w
    ++ [(action, session_id, Utf8ToStringView message)].
Proof.
  unfold PostIncomingMessage. simpl.
  by destruct (bool_decide (incoming_message_queue_ w = [])).
Qed.

End TraceFacts.

(** ** The transport delegate and the I/O thread *)

Section IoThreadFacts.
Context `{Collaborators}.

Lemma transport_calls_trace (queue : MessageQueue TransportAction.t)
    (w : World) :
  let w' := foldl (λ w outgoing, emit (transport_calls outgoing) w) w queue in
  trace w' = trace w ++ concat (transport_calls <$> queue)
  ∧ delegate w' = delegate w
  ∧ incoming_message_queue_ w' = incoming_message_queue_ w
  ∧ outgoing_message_queue_ w' = outgoing_message_queue_ w.
Proof.
  revert w. induction queue as [|m queue IH]; intros w; simpl.
  - by rewrite app_nil_r.
  - destruct (IH (emit (transport_calls m) w)) as (-> & -> & -> & ->).
    simpl. by rewrite <- app_assoc.
Qed.

Lemma IoThreadAsyncCb_trace (w : World) :
  trace (IoThreadAsyncCb w)
  = trace w ++ match delegate w with
               | Some _ => concat (transport_calls <$> outgoing_message_queue_ w)
               | None => []
               end
  ∧ delegate (IoThreadAsyncCb w) = delegate w.
Proof.
  unfold IoThreadAsyncCb. destruct (delegate w) eqn:Hd.
  - simpl.
    destruct (transport_calls_trace (outgoing_message_queue_ w)
                (set_outgoing_message_queue_ [] w)) as (-> & -> & _).
    done.
  - by rewrite app_nil_r.
Qed.

Lemma resumes_transport_calls (queue : MessageQueue TransportAction.t) :
  resumes (concat (transport_calls <$> queue)) = 0.
Proof.
  induction queue as [|[[action sid] message] queue IH]; [done|].
  change (resumes (transport_calls (action, sid, message)
                   ++ concat (transport_calls <$> queue)) = 0).
  unfold resumes in *. rewrite occurrences_app, IH.
  by destruct action.
Qed.

Lemma resumes_PostIncomingMessage action session_id message (w : World) :
  ∃ d, trace (PostIncomingMessage action session_id message w) = trace w ++ d
       ∧ resumes d = 0.
Proof.
  eexists. split; [apply PostIncomingMessage_trace|].
  by destruct (bool_decide (incoming_message_queue_ w = [])).
Qed.

(** What one call of [MessageReceived] does. *)
Lemma MessageReceived_cases (sid : Z) (message : string)
    (d : InspectorIoDelegate) (w : World) :
  let r := MessageReceived sid message d w in
  incoming_message_queue_ r.2
  = incoming_message_queue_ w
    ++ [(InspectorAction.kSendMessage, sid, Utf8ToStringView message)]
  ∧ (waiting_ d = true ∧ contains message resume_command →
       waiting_ r.1 = false ∧ resumes (since w r.2) = 1)
  ∧ (¬ (waiting_ d = true ∧ contains message resume_command) →
       r.1 = d ∧ resumes (since w r.2) = 0).
Proof.
  unfold MessageReceived.
  pose proof (find_contains message resume_command) as Hfind.
  destruct (waiting_ d) eqn:Hw;
    [destruct (find message resume_command) as [pos|] eqn:Hf|];
    cbn [fst snd].
  - rewrite PostIncomingMessage_incoming. split; [done|]. split.
    + intros _. split; [done|].
      destruct (resumes_PostIncomingMessage InspectorAction.kSendMessage sid
                  message (ResumeStartup w)) as (d' & Ht & Hd').
      rewrite (since_extended w _ ([ResumeStartupCalled] ++ d')).
      * unfold resumes in *. by rewrite occurrences_app, Hd'.
      * rewrite Ht. simpl. by rewrite <- app_assoc.
    + intros Hno. exfalso. apply Hno. split; [done|]. apply Hfind. by eexists.
  - rewrite PostIncomingMessage_incoming. split; [done|]. split.
    + intros [_ Hc]. apply Hfind in Hc as [? Hc]. congruence.
    + intros _. split; [done|].
      destruct (resumes_PostIncomingMessage InspectorAction.kSendMessage sid
                  message w) as (d' & Ht & Hd').
      by rewrite (since_extended w _ d').
  - rewrite PostIncomingMessage_incoming. split; [done|]. split.
    + by intros [? _].
    + intros _. split; [done|].
      destruct (resumes_PostIncomingMessage InspectorAction.kSendMessage sid
                  message w) as (d' & Ht & Hd').
      by rewrite (since_extended w _ d').
Qed.

Lemma StartSession_resumes sid target d (w : World) :
  resumes_once d w (StartSession sid target d w).
Proof.
  unfold resumes_once, StartSession. cbn [waiting_].
  destruct (waiting_ d) eqn:Hw; cbn [fst snd waiting_];
    rewrite PostIncomingMessage_trace; cbn [emit trace incoming_message_queue_];
    rewrite <- ?app_assoc; eexists; (split; [reflexivity|]);
    destruct (bool_decide (incoming_message_queue_ w = []));
    (split; [cbv; lia|done]).
Qed.

Lemma EndSession_resumes sid d (w : World) :
  resumes_once d w (EndSession sid d w).
Proof.
  unfold resumes_once, EndSession. cbn [fst snd].
  rewrite PostIncomingMessage_trace. eexists. split; [reflexivity|].
  destruct (bool_decide (incoming_message_queue_ w = []));
    (split; [cbv; lia|done]).
Qed.

Lemma MessageReceived_resumes sid message d (w : World) :
  resumes_once d w (MessageReceived sid message d w).
Proof.
  pose proof (MessageReceived_cases sid message d w) as (_ & Hyes & Hno).
  assert (∃ e, trace (MessageReceived sid message d w).2 = trace w ++ e)
    as [e He].
  { unfold MessageReceived.
    destruct (waiting_ d); [destruct (find message resume_command)|];
      cbn [fst snd]; rewrite PostIncomingMessage_trace;
      cbn [ResumeStartup emit set_thread_start_sem_ trace];
      rewrite <- ?app_assoc; by eexists. }
  exists e. split; [done|]. rewrite (since_extended _ _ _ He) in *.
  assert (Hdec : (waiting_ d = true ∧ contains message resume_command)
                 ∨ ¬ (waiting_ d = true ∧ contains message resume_command)).
  { destruct (waiting_ d); [|right; by intros [? _]].
    destruct (find message resume_command) as [pos|] eqn:Hf.
    - left. split; [done|]. apply find_contains. by eexists.
    - right. intros [_ Hc%find_contains]. rewrite Hf in Hc. by destruct Hc. }
  destruct Hdec as [Hc|Hc].
  - destruct (Hyes Hc) as [-> ->]. destruct Hc as [-> _]. split; [lia|done].
  - destruct (Hno Hc) as [-> ->]. split; [lia|]. by intros ->.
Qed.

Lemma io_step_resumes (s : IoThreadStep) (w : World) :
  ∃ e, trace (io_step s w) = trace w ++ e
       ∧ resumes e ≤ (if still_waiting w then 1 else 0)
       ∧ (still_waiting (io_step s w) = true →
            still_waiting w = true ∧ resumes e = 0).
Proof.
  assert (Hhandler : ∀ f,
    (∀ d, resumes_once d w (f d w)) →
    let w' := match delegate w with
              | None => w
              | Some d => let '(d, w) := f d w in set_delegate (Some d) w
              end in
    ∃ e, trace w' = trace w ++ e
         ∧ resumes e ≤ (if still_waiting w then 1 else 0)
         ∧ (still_waiting w' = true → still_waiting w = true ∧ resumes e = 0)).
  { intros f Hf. unfold still_waiting. destruct (delegate w) as [d|] eqn:Hd.
    - destruct (Hf d) as (e & He & Hle & Hw). destruct (f d w) as [d' w'].
      exists e. done.
    - exists []. rewrite ?Hd, app_nil_r. split; [done|]. split; [cbv; lia|done]. }
  destruct s as [sid target|sid message|sid|]; cbn [io_step].
  - apply Hhandler. intros d. apply StartSession_resumes.
  - apply Hhandler. intros d. apply MessageReceived_resumes.
  - apply Hhandler. intros d. apply EndSession_resumes.
  - unfold still_waiting. destruct (IoThreadAsyncCb_trace w) as [-> ->].
    eexists. split; [reflexivity|].
    destruct (delegate w) as [d|]; [rewrite resumes_transport_calls|];
      (split; [cbv; lia|done]).
Qed.

Lemma io_steps_resumes (steps : list IoThreadStep) (w : World) :
  ∃ d, trace (io_steps steps w) = trace w ++ d
       ∧ resumes d ≤ (if still_waiting w then 1 else 0).
Proof.
  revert w. induction steps as [|s steps IH]; intros w.
  - exists []. rewrite app_nil_r. split; [done|].
    destruct (still_waiting w); cbv; lia.
  - destruct (io_step_resumes s w) as (d1 & Ht1 & Hle1 & Hstill).
    destruct (IH (io_step s w)) as (d2 & Ht2 & Hle2).
    exists (d1 ++ d2). split.
    + change (io_steps (s :: steps) w) with (io_steps steps (io_step s w)).
      by rewrite Ht2, Ht1, <- app_assoc.
    + unfold resumes in *. rewrite occurrences_app.
      destruct (still_waiting (io_step s w)) eqn:Hafter.
      * destruct (Hstill eq_refl) as [-> Hzero]. lia.
      * lia.
Qed.
End IoThreadFacts.

(** ** Every call is made of atoms *)

Section Atoms.
Context `{Collaborators}.

#[local] Arguments Write : simpl never.
#[local] Arguments PostIncomingMessage : simpl never.
#[local] Arguments IoThreadAsyncCb : simpl never.
#[local] Arguments emit : simpl never.
#[local] Arguments set_state_ : simpl never.
#[local] Arguments set_sessions_ : simpl never.
#[local] Arguments set_agent : simpl never.
#[local] Arguments set_dispatching_message_queue_ : simpl never.
#[local] Arguments set_incoming_message_queue_ : simpl never.
#[local] Arguments set_dispatching_messages_ : simpl never.
#[local] Arguments set_thread_start_sem_ : simpl never.
#[local] Arguments set_delegate : simpl never.
#[local] Arguments set_port_ : simpl never.
#[local] Arguments round : simpl never.
#[local] Arguments io_steps : simpl never.

(** Peel the last atom off the world on the right. *)
Ltac atoms :=
  repeat first
    [ apply rtc_refl
    | assumption
    | eapply rtc_r; [|solve [constructor; done]] ].

Lemma atoms_Attach sid (w : World) : rtc atom w (Attach sid w).2.
Proof.
  unfold Attach. destruct (agent_Connect _ _) as [agent' session]. simpl.
  atoms.
Qed.

Lemma atoms_Dispatch session message (w : World) :
  rtc atom w (Dispatch session message w).
Proof.
  unfold Dispatch. destruct (session_Dispatch _ _ _) as [agent' answers].
  assert (Hfold : ∀ w0 : World, rtc atom w w0 →
    rtc atom w (foldl (λ w answer, SendMessageToFrontend answer.1 answer.2 w)
                      w0 answers)).
  { induction answers as [|a answers IH]; intros w0 Hw0; simpl; [done|].
    apply IH. unfold SendMessageToFrontend. atoms. }
  apply Hfold. atoms.
Qed.

Lemma atoms_process task (w : World) : rtc atom w (process task w).
Proof.
  destruct task as [[action id] message]. destruct action; simpl.
  - pose proof (atoms_Attach id w) as Ha.
    destruct (Attach id w) as [accept w'] eqn:Hattach.
    assert (accept = TransportAction.kAcceptSession) as ->.
    { unfold Attach in Hattach. destruct (agent_Connect _ _). congruence. }
    simpl in Ha. simpl. atoms.
  - apply atoms_Attach.
  - destruct (sessions_ w !! id) as [[session|]|]; [|atoms..].
    apply atoms_Dispatch.
  - repeat case_bool_decide; simpl; atoms.
Qed.

Lemma atoms_drain tasks (w w0 : World) :
  rtc atom w w0 → rtc atom w (drain tasks w0).
Proof.
  revert w0. induction tasks as [|task rest IH]; intros w0 Hw0; simpl.
  - atoms.
  - apply IH. etrans; [|apply atoms_process]. atoms.
Qed.

Lemma atoms_round (w : World) : rtc atom w (round w).2.
Proof.
  unfold round. cbn [snd]. apply atoms_drain.
  case_bool_decide; simpl; atoms.
Qed.

Lemma atoms_io_step s (w : World) : rtc atom w (io_step s w).
Proof.
  destruct s as [sid target|sid message|sid|]; simpl;
    try (destruct (delegate w) as [d|]; [|atoms]).
  - unfold StartSession. destruct (waiting_ _); simpl; atoms.
  - unfold MessageReceived, ResumeStartup.
    destruct (waiting_ d); [destruct (find _ _)|]; simpl; atoms.
  - unfold EndSession. simpl. atoms.
  - atoms.
Qed.

Lemma atoms_io_steps steps (w w0 : World) :
  rtc atom w w0 → rtc atom w (io_steps steps w0).
Proof.
  revert w0. induction steps as [|s steps IH]; intros w0 Hw0; [done|].
  apply IH. etrans; [done|apply atoms_io_step].
Qed.

Lemma do_while_unfold fuel arrivals (w : World) :
  do_while fuel arrivals w
  = if (round w).1
    then match fuel with
         | O => (round w).2
         | S fuel' =>
             do_while fuel' (tail arrivals)
                      (io_steps (default [] (head arrivals)) (round w).2)
         end
    else (round w).2.
Proof. destruct fuel; simpl; by destruct (round w) as [[] ?]. Qed.

Lemma atoms_do_while fuel arrivals (w w0 : World) :
  rtc atom w w0 → rtc atom w (do_while fuel arrivals w0).
Proof.
  revert arrivals w0.
  induction fuel as [|fuel IH]; intros arrivals w0 Hw0;
    rewrite do_while_unfold;
    (assert (rtc atom w (round w0).2) by (etrans; [done|apply atoms_round]));
    destruct (round w0).1; try done.
  by apply IH, atoms_io_steps.
Qed.

Lemma atoms_DispatchMessages arrivals (w : World) :
  rtc atom w (DispatchMessages arrivals w).
Proof.
  unfold DispatchMessages. destruct (dispatching_messages_ w); [done|].
  eapply rtc_r; [apply atoms_do_while|constructor]. atoms.
Qed.

Lemma atoms_thread_exit (w : World) : rtc atom w (thread_exit w).
Proof. unfold thread_exit. destruct (delegate w); atoms. Qed.

Lemma atoms_ThreadMain env (w : World) : rtc atom w (ThreadMain env w).
Proof.
  unfold ThreadMain. destruct (server_starts env); simpl.
  - apply atoms_io_steps. case_match; atoms.
  - destruct (io_thread_returned env);
      [etrans; [|apply atoms_thread_exit]|]; atoms.
Qed.

Lemma atoms_WaitForDisconnect (w : World) : rtc atom w (WaitForDisconnect w).
Proof.
  unfold WaitForDisconnect. repeat case_bool_decide; simpl; atoms.
Qed.

Lemma atoms_Start env arrivals (w : World) b w' :
  Start env arrivals w = Returns (b, w') → rtc atom w w'.
Proof.
  unfold Start, CHECK. repeat case_bool_decide; simpl; try done.
  pose proof (atoms_ThreadMain env w) as Ht.
  destruct (thread_start_sem_ (ThreadMain env w)) as [|n]; [done|].
  case_bool_decide; intros [= <- <-]; [atoms|].
  case_match; [etrans; [|apply atoms_DispatchMessages]|]; atoms.
Qed.

(** [Stop] writes its [Kill]; all the rest is atoms. *)
Lemma atoms_Stop env (w w' : World) :
  Stop env w = Returns w' →
  rtc atom (Write TransportAction.kKill 0 empty_view w) w'.
Proof.
  unfold Stop, CHECK. destruct (implb _ _); simpl; [|done].
  destruct (thread_exits env); simpl; [|done].
  case_bool_decide; simpl; [|done]. intros [= <-].
  etrans; [|apply atoms_DispatchMessages].
  eapply rtc_r; [|by constructor].
  etrans; [|apply atoms_thread_exit]. by apply atoms_io_steps.
Qed.

(** *** What the atoms keep *)

Lemma extends_with_since P (w w' : World) :
  extends_with P w w' → P (since w w').
Proof. intros (e & He & HP). by rewrite (since_extended _ _ _ He). Qed.

Lemma wakeups_as_coded_nil : wakeups_as_coded [].
Proof. done. Qed.

Lemma wakeups_as_coded_app e1 e2 :
  wakeups_as_coded e1 → wakeups_as_coded e2 → wakeups_as_coded (e1 ++ e2).
Proof.
  unfold wakeups_as_coded, main_wakeups, io_wakeups, foreground_tasks,
    interrupt_requests, broadcasts, appends, appends_on_empty.
  rewrite !occurrences_app. lia.
Qed.

Lemma occurrences_none p (es : list Event) :
  (∀ e, e ∈ es → p e = false) → occurrences p es = 0.
Proof.
  unfold occurrences. induction es as [|e es IH]; intros Hes; [done|].
  simpl. rewrite (Hes e) by left. apply IH. intros e' He'. apply Hes. by right.
Qed.

Lemma bookkeeping_all es e :
  forallb bookkeeping es = true → e ∈ es → bookkeeping e = true.
Proof.
  rewrite forallb_forall. intros Hall He. by apply Hall, list_elem_of_In.
Qed.

Lemma wakeups_bookkeeping es :
  forallb bookkeeping es = true → wakeups_as_coded es.
Proof.
  intros Hes.
  unfold wakeups_as_coded, main_wakeups, io_wakeups, foreground_tasks,
    interrupt_requests, broadcasts, appends, appends_on_empty.
  rewrite !occurrences_none; [done|..]; intros e He;
    apply (bookkeeping_all _ _ Hes) in He; by destruct e.
Qed.

Lemma wakeups_transport_calls (queue : MessageQueue TransportAction.t) :
  wakeups_as_coded (concat (transport_calls <$> queue)).
Proof.
  induction queue as [|[[action sid] message] queue IH]; [done|].
  change (wakeups_as_coded (transport_calls (action, sid, message)
                            ++ concat (transport_calls <$> queue))).
  apply wakeups_as_coded_app; [|done]. by destruct action.
Qed.

Lemma wakeups_Write action sid message (w : World) :
  extends_with wakeups_as_coded w (Write action sid message w).
Proof.
  eexists. split; [apply Write_trace|].
  by destruct (bool_decide (outgoing_message_queue_ w = [])).
Qed.

Lemma wakeups_atom (w w' : World) :
  atom w w' → extends_with wakeups_as_coded w w'.
Proof.
  destruct 1;
    try (exists []; split; [by rewrite app_nil_r|done]).
  - apply wakeups_Write.
  - eexists. split; [apply PostIncomingMessage_trace|].
    by destruct (bool_decide (incoming_message_queue_ w = [])).
  - eexists. split; [apply IoThreadAsyncCb_trace|].
    destruct (delegate w); [apply wakeups_transport_calls|done].
  - exists es. split; [done|]. by apply wakeups_bookkeeping.
Qed.

Lemma wakeups_atoms (w w' : World) :
  rtc atom w w' → extends_with wakeups_as_coded w w'.
Proof.
  induction 1 as [w|w w1 w2 Hatom _ (e2 & He2 & HP2)].
  - exists []. split; [by rewrite app_nil_r|done].
  - destruct (wakeups_atom _ _ Hatom) as (e1 & He1 & HP1).
    exists (e1 ++ e2). split; [by rewrite He2, He1, app_assoc|].
    by apply wakeups_as_coded_app.
Qed.

Lemma wakeups_call c (w : World) :
  extends_with wakeups_as_coded w (call c w).
Proof.
  destruct c; simpl.
  - apply wakeups_Write.
  - apply wakeups_atoms, rtc_once. constructor.
  - by apply wakeups_atoms, atoms_io_steps.
  - apply wakeups_atoms, atoms_DispatchMessages.
  - apply wakeups_atoms, atoms_WaitForDisconnect.
Qed.

Lemma wakeups_calls (cs : list Call) (w : World) :
  extends_with wakeups_as_coded w (calls cs w).
Proof.
  revert w. induction cs as [|c cs IH]; intros w.
  - exists []. split; [by rewrite app_nil_r|done].
  - destruct (wakeups_call c w) as (e1 & He1 & HP1).
    destruct (IH (call c w)) as (e2 & He2 & HP2).
    exists (e1 ++ e2). split.
    + change (calls (c :: cs) w) with (calls cs (call c w)).
      by rewrite He2, He1, app_assoc.
    + by apply wakeups_as_coded_app.
Qed.

(** C1 (as amended). [PostIncomingMessage] wakes the runtime thread, by the
    task for the foreground thread, the interrupt request and the async
    send, in that order, exactly when [AppendMessage] returned true, which
    is when the incoming queue was empty at entry; it broadcasts the
    condition variable on every call, after the append and the wakeups.
    [Write] wakes the I/O thread on every call, whatever [AppendMessage]
    returned.  So over any sequence of calls that push to the queues or take
    from them, the runtime thread is woken in each of the three ways once
    for every append that found the incoming queue empty, the condition
    variable is broadcast once for every append to the incoming queue, and
    the I/O thread is woken once for every append to the outgoing queue,
    whether the queue was empty or not. *)
Theorem wakeups_per_append :
  (∀ action sid message (w : World),
     let appended := (AppendMessage (incoming_message_queue_ w) action sid
                                    (Utf8ToStringView message)).1 in
     appended = bool_decide (incoming_message_queue_ w = [])
     ∧ since w (PostIncomingMessage action sid message w)
       = Appended Incoming appended
         :: (if appended
             then [CallOnForegroundThread; RequestInterrupt; MainAsyncSend]
             else [])
         ++ [Broadcast]
     ∧ main_wakeups (since w (PostIncomingMessage action sid message w))
       = if appended then 1 else 0)
  ∧ (∀ action sid message (w : World),
       since w (Write action sid message w)
       = [Appended Outgoing
            (AppendMessage (outgoing_message_queue_ w) action sid message).1;
          IoAsyncSend]
       ∧ io_wakeups (since w (Write action sid message w)) = 1)
  ∧ (∀ (cs : list Call) (w : World),
       main_wakeups (since w (calls cs w))
       = appends_on_empty Incoming (since w (calls cs w))
       ∧ io_wakeups (since w (calls cs w))
         = appends Outgoing (since w (calls cs w))
       ∧ foreground_tasks (since w (calls cs w))
         = appends_on_empty Incoming (since w (calls cs w))
       ∧ interrupt_requests (since w (calls cs w))
         = appends_on_empty Incoming (since w (calls cs w))
       ∧ broadcasts (since w (calls cs w))
         = appends Incoming (since w (calls cs w))).
Proof.
  split; [|split].
  - intros action sid message w. cbn [AppendMessage fst].
    rewrite (since_extended _ _ _
               (PostIncomingMessage_trace action sid message w)).
    split; [done|]. split; [done|].
    by destruct (bool_decide (incoming_message_queue_ w = [])).
  - intros action sid message w. cbn [AppendMessage fst].
    rewrite (since_extended _ _ _ (Write_trace action sid message w)).
    split; [done|].
    by destruct (bool_decide (outgoing_message_queue_ w = [])).
  - intros cs w.
    apply (extends_with_since wakeups_as_coded), wakeups_calls.
Qed.

End Atoms.

(** ** What each thread leaves alone, and the fuel of the dispatch loop *)

Section Frames.
Context `{Collaborators}.

#[local] Arguments round : simpl never.
#[local] Arguments do_while : simpl never.
#[local] Arguments io_steps : simpl never.
#[local] Arguments view : simpl never.

#[local] Instance runtime_frame_preorder : PreOrder runtime_frame.
Proof.
  split; [done|].
  intros w1 w2 w3 (?&?&?&?&?&?) (?&?&?&?&?&?).
  repeat split; congruence.
Qed.

#[local] Instance io_frame_preorder : PreOrder io_frame.
Proof.
  split; [done|].
  intros w1 w2 w3 (?&?&?&?&?&?) (?&?&?&?&?&?).
  repeat split; congruence.
Qed.

Lemma Write_keeps action sid message (w : World) :
  let w' := Write action sid message w in
  runtime_frame w w' ∧ state_ w' = state_ w ∧ sessions_ w' = sessions_ w
  ∧ agent w' = agent w.
Proof. done. Qed.

Lemma answers_keep (answers : list (Z * StringBuffer)) (w : World) :
  let w' := foldl (λ w answer, SendMessageToFrontend answer.1 answer.2 w)
                  w answers in
  runtime_frame w w' ∧ state_ w' = state_ w ∧ sessions_ w' = sessions_ w
  ∧ agent w' = agent w.
Proof.
  revert w. induction answers as [|a answers IH]; intros w; simpl; [done|].
  destruct (IH (SendMessageToFrontend a.1 a.2 w)) as (Hf & -> & -> & ->).
  split; [|done]. etrans; [|exact Hf]. done.
Qed.

Lemma Dispatch_keeps session message (w : World) :
  let w' := Dispatch session message w in
  runtime_frame w w' ∧ state_ w' = state_ w ∧ sessions_ w' = sessions_ w.
Proof.
  unfold Dispatch. destruct (session_Dispatch _ _ _) as [agent' answers].
  destruct (answers_keep answers
              (set_agent agent' (emit [SessionDispatch session message] w)))
    as (Hf & -> & -> & _).
  split; [|done]. etrans; [|exact Hf]. done.
Qed.

Lemma process_frame task (w : World) : runtime_frame w (process task w).
Proof.
  destruct task as [[action id] message]. destruct action; simpl.
  - unfold Attach. by destruct (agent_Connect _ _).
  - unfold Attach. by destruct (agent_Connect _ _).
  - destruct (sessions_ w !! id) as [[session|]|]; [|done..].
    apply Dispatch_keeps.
  - by repeat case_bool_decide.
Qed.

(** One task moves the state and the ids of the table as [abstract_step]
    says. *)
Lemma process_abstract task (w : World) :
  view (process task w) = abstract_step task (view w).
Proof.
  destruct task as [[action id] message]. unfold view.
  destruct action; simpl.
  - unfold Attach. destruct (agent_Connect _ _). simpl.
    by rewrite dom_insert_L.
  - unfold Attach. destruct (agent_Connect _ _). simpl.
    by rewrite dom_insert_L.
  - destruct (sessions_ w !! id) as [[session|]|]; [|done..].
    by destruct (Dispatch_keeps session message w) as (_ & -> & ->).
  - rewrite <- dom_delete_L.
    destruct (decide (delete id (sessions_ w) = ∅)) as [He|He].
    + assert (Hd : dom (delete id (sessions_ w)) = ∅)
        by (by apply dom_empty_iff_L).
      rewrite (bool_decide_eq_true_2 _ He), (bool_decide_eq_true_2 _ Hd).
      simpl. by case_bool_decide.
    + assert (Hd : dom (delete id (sessions_ w)) ≠ ∅)
        by (by rewrite dom_empty_iff_L).
      by rewrite (bool_decide_eq_false_2 _ He), (bool_decide_eq_false_2 _ Hd).
Qed.

Lemma drain_keeps tasks (w : World) :
  let w' := drain tasks w in
  incoming_message_queue_ w' = incoming_message_queue_ w
  ∧ dispatching_message_queue_ w' = []
  ∧ dispatching_messages_ w' = dispatching_messages_ w
  ∧ delegate w' = delegate w
  ∧ thread_start_sem_ w' = thread_start_sem_ w
  ∧ wait_for_connect_ w' = wait_for_connect_ w
  ∧ view w' = foldl (λ v task, abstract_step task v) (view w) tasks.
Proof.
  revert w. induction tasks as [|task rest IH]; intros w; simpl; [done|].
  destruct (IH (process task (set_dispatching_message_queue_ rest w)))
    as (-> & -> & -> & -> & -> & -> & ->).
  destruct (process_frame task (set_dispatching_message_queue_ rest w))
    as (-> & _ & -> & -> & -> & ->).
  by rewrite process_abstract.
Qed.

Lemma round_spec (w : World) :
  let r := round w in
  r.1 = negb (bool_decide (round_tasks w = []))
  ∧ incoming_message_queue_ r.2
    = (if bool_decide (dispatching_message_queue_ w = []) then []
       else incoming_message_queue_ w)
  ∧ dispatching_message_queue_ r.2 = []
  ∧ dispatching_messages_ r.2 = dispatching_messages_ w
  ∧ delegate r.2 = delegate w
  ∧ thread_start_sem_ r.2 = thread_start_sem_ w
  ∧ wait_for_connect_ r.2 = wait_for_connect_ w
  ∧ view r.2 = foldl (λ v task, abstract_step task v) (view w) (round_tasks w).
Proof.
  unfold round, round_tasks. cbn [fst snd].
  destruct (decide (dispatching_message_queue_ w = [])) as [He|He].
  - rewrite (bool_decide_eq_true_2 _ He). simpl.
    destruct (drain_keeps (incoming_message_queue_ w)
      (set_dispatching_message_queue_ (incoming_message_queue_ w)
        (set_incoming_message_queue_ (dispatching_message_queue_ w) w)))
      as (-> & -> & -> & -> & -> & -> & ->).
    by rewrite He.
  - rewrite (bool_decide_eq_false_2 _ He).
    by destruct (drain_keeps (dispatching_message_queue_ w) w)
      as (-> & -> & -> & -> & -> & -> & ->).
Qed.

#[local] Opaque round do_while.

Lemma PostIncomingMessage_keeps action sid message (w : World) :
  io_frame w (PostIncomingMessage action sid message w)
  ∧ delegate (PostIncomingMessage action sid message w) = delegate w.
Proof.
  unfold PostIncomingMessage. simpl.
  by destruct (bool_decide (incoming_message_queue_ w = [])).
Qed.

Lemma transport_calls_keep (queue : MessageQueue TransportAction.t)
    (w : World) :
  io_frame w (foldl (λ w outgoing, emit (transport_calls outgoing) w) w queue).
Proof.
  revert w. induction queue as [|m queue IH]; intros w; simpl; [done|].
  etrans; [|apply IH]. done.
Qed.

Lemma IoThreadAsyncCb_keeps (w : World) : io_frame w (IoThreadAsyncCb w).
Proof.
  unfold IoThreadAsyncCb. destruct (delegate w); [|done]. simpl.
  etrans; [|apply transport_calls_keep]. done.
Qed.

Lemma io_step_keeps s (w : World) : io_frame w (io_step s w).
Proof.
  destruct s as [sid target|sid message|sid|]; simpl;
    try (destruct (delegate w) as [d|]; [|done]).
  - unfold StartSession. destruct (waiting_ _); simpl.
    + etrans; [|apply PostIncomingMessage_keeps]. done.
    + apply PostIncomingMessage_keeps.
  - unfold MessageReceived.
    destruct (waiting_ d); [destruct (find _ _)|]; simpl;
      try apply PostIncomingMessage_keeps.
    etrans; [|apply PostIncomingMessage_keeps]. done.
  - unfold EndSession. simpl. apply PostIncomingMessage_keeps.
  - apply IoThreadAsyncCb_keeps.
Qed.

Lemma io_steps_keeps steps (w : World) : io_frame w (io_steps steps w).
Proof.
  revert w. induction steps as [|s steps IH]; intros w; [done|].
  etrans; [apply (io_step_keeps s)|apply IH].
Qed.

(** The fuel of [DispatchMessages] is enough: the loop ends because a round
    found nothing to do, with the drain buffer and the incoming queue both
    empty. *)
Lemma do_while_drained fuel arrivals (w : World) :
  queue_load w + length arrivals ≤ fuel →
  let w' := do_while fuel arrivals w in
  incoming_message_queue_ w' = [] ∧ dispatching_message_queue_ w' = [].
Proof.
  revert arrivals w. induction fuel as [|fuel IH]; intros arrivals w Hfuel;
    rewrite do_while_unfold;
    destruct (round_spec w) as (Hhad & Hinc & Hdisp & _);
    unfold queue_load, round_tasks in *; rewrite Hhad.
  - repeat case_bool_decide; simpl in *; try lia. by rewrite Hinc, Hdisp.
  - destruct (negb _) eqn:Hwork; [|by repeat case_bool_decide; simplify_eq/=].
    apply IH.
    destruct (io_steps_keeps (default [] (head arrivals)) (round w).2)
      as (_ & _ & Hkeep & _).
    unfold queue_load. rewrite Hkeep, Hdisp. simpl.
    destruct arrivals as [|a rest]; simpl in *.
    + change (io_steps [] (round w).2) with (round w).2.
      rewrite Hinc. repeat case_bool_decide; simplify_eq/=; lia.
    + repeat case_bool_decide; simplify_eq/=; lia.
Qed.

Lemma DispatchMessages_drained arrivals (w : World) :
  dispatching_messages_ w = false →
  let w' := DispatchMessages arrivals w in
  incoming_message_queue_ w' = [] ∧ dispatching_message_queue_ w' = [].
Proof.
  intros Hflag. unfold DispatchMessages. rewrite Hflag. simpl.
  apply (do_while_drained _ _ (set_dispatching_messages_ true w)).
  unfold queue_load. repeat case_bool_decide; lia.
Qed.

(** With the I/O thread quiet, [DispatchMessages] works through the drain
    buffer and then through the incoming queue. *)
Lemma DispatchMessages_quiet (w : World) :
  dispatching_messages_ w = false →
  let w' := DispatchMessages [] w in
  view w'
  = foldl (λ v task, abstract_step task v) (view w)
          (dispatching_message_queue_ w ++ incoming_message_queue_ w)
  ∧ delegate w' = delegate w.
Proof.
  intros Hflag. unfold DispatchMessages. rewrite Hflag. cbn [length plus].
  set (w0 := set_dispatching_messages_ true w).
  change (view w) with (view w0).
  change (dispatching_message_queue_ w) with (dispatching_message_queue_ w0).
  change (incoming_message_queue_ w) with (incoming_message_queue_ w0).
  change (delegate w) with (delegate w0).
  assert (Hout : ∀ w1 : World,
    view (set_dispatching_messages_ false w1) = view w1
    ∧ delegate (set_dispatching_messages_ false w1) = delegate w1) by done.
  destruct (Hout (do_while 2 [] w0)) as [-> ->]. clear Hout.
  generalize w0. clear. intros w.
  destruct (round_spec w)
    as (Hhad1 & Hinc1 & Hdisp1 & _ & Hdel1 & _ & _ & Hview1).
  set (w1 := (round w).2) in *.
  destruct (round_spec w1)
    as (Hhad2 & Hinc2 & Hdisp2 & _ & Hdel2 & _ & _ & Hview2).
  set (w2 := (round w1).2) in *.
  destruct (round_spec w2) as (_ & _ & _ & _ & Hdel3 & _ & _ & Hview3).
  assert (Ht2 : round_tasks w1 = incoming_message_queue_ w1).
  { unfold round_tasks. by rewrite Hdisp1. }
  assert (Ht3 : round_tasks w2 = []).
  { unfold round_tasks. by rewrite Hdisp2, Hinc2, Hdisp1. }
  assert (Hsplit : dispatching_message_queue_ w ++ incoming_message_queue_ w
                   = round_tasks w ++ incoming_message_queue_ w1
                   ∧ (round_tasks w = [] → incoming_message_queue_ w1 = [])).
  { rewrite Hinc1. unfold round_tasks.
    destruct (decide (dispatching_message_queue_ w = [])) as [He|He].
    - rewrite (bool_decide_eq_true_2 _ He), He. by rewrite app_nil_r.
    - by rewrite (bool_decide_eq_false_2 _ He). }
  destruct Hsplit as [-> Hidle].
  rewrite Ht2 in *. rewrite Ht3 in *. rewrite foldl_app, <- Hview1.
  rewrite do_while_unfold. fold w1. rewrite Hhad1.
  destruct (decide (round_tasks w = [])) as [Ht1|Ht1];
    [rewrite (bool_decide_eq_true_2 _ Ht1)
    |rewrite (bool_decide_eq_false_2 _ Ht1)]; cbn [negb].
  { by rewrite (Hidle Ht1). }
  change (io_steps (default [] (head [])) w1) with w1.
  rewrite do_while_unfold. fold w2. rewrite Hhad2.
  destruct (decide (incoming_message_queue_ w1 = [])) as [Hq|Hq];
    [rewrite (bool_decide_eq_true_2 _ Hq)
    |rewrite (bool_decide_eq_false_2 _ Hq)]; cbn [negb].
  { split; [by rewrite Hview2|congruence]. }
  change (io_steps (default [] (head (tail []))) w2) with w2.
  rewrite do_while_unfold.
  assert (Hlast : (if (round w2).1 then (round w2).2 else (round w2).2)
                  = (round w2).2) by (by destruct (round w2).1).
  rewrite Hlast, Hview3, Hdel3, Hview2. split; [done|congruence].
Qed.

End Frames.

(** ** The state machine on the state and the ids of the table *)

Lemma abstract_run_cons task rest (v : State * gset Z) :
  abstract_run (task :: rest) v = abstract_run rest (abstract_step task v).
Proof. done. Qed.

Lemma abstract_step_ids task (s1 s2 : State) (ids : gset Z) :
  (abstract_step task (s1, ids)).2 = (abstract_step task (s2, ids)).2.
Proof.
  destruct task as [[action id] message].
  destruct action; simpl; by repeat case_bool_decide.
Qed.

Lemma abstract_run_settled tasks (s : State) (ids : gset Z) :
  s = kDone ∨ s = kAccepting →
  (abstract_run tasks (s, ids)).1 = kDone
  ∨ (abstract_run tasks (s, ids)).1 = kAccepting.
Proof.
  revert s ids. induction tasks as [|task rest IH]; intros s ids Hs; [done|].
  rewrite abstract_run_cons.
  destruct (abstract_step task (s, ids)) as [s' ids'] eqn:Hstep.
  apply IH. destruct task as [[action id] message].
  destruct action; simpl in Hstep; repeat case_bool_decide;
    simplify_eq; tauto.
Qed.

(** From [kShutDown] the state stays [kShutDown] until an [EndSession]
    leaves the table empty; from then on it is [kDone] or [kAccepting]. *)
Lemma abstract_run_from_kShutDown tasks (ids : gset Z) :
  if table_runs_empty tasks ids
  then (abstract_run tasks (kShutDown, ids)).1 = kDone
       ∨ (abstract_run tasks (kShutDown, ids)).1 = kAccepting
  else (abstract_run tasks (kShutDown, ids)).1 = kShutDown.
Proof.
  revert ids. induction tasks as [|task rest IH]; intros ids; [done|].
  rewrite abstract_run_cons. cbn [table_runs_empty].
  rewrite (abstract_step_ids task kNew kShutDown).
  destruct task as [[action id] message].
  destruct action; cbn [fst snd abstract_step andb orb bool_decide];
    try (rewrite bool_decide_eq_false_2 by done; cbn [andb orb]; apply IH).
  rewrite (bool_decide_eq_true_2 (InspectorAction.kEndSession = _)) by done.
  cbn [andb]. case_bool_decide as Hempty; cbn [orb snd].
  - apply abstract_run_settled. by left.
  - apply IH.
Qed.

Section StopFacts.
Context `{Collaborators}.

Lemma thread_exit_keeps (w : World) :
  io_frame w (thread_exit w)
  ∧ incoming_message_queue_ (thread_exit w) = incoming_message_queue_ w
  ∧ delegate (thread_exit w) = None.
Proof. unfold thread_exit. by destruct (delegate w) eqn:Hd. Qed.

Lemma PostIncomingMessage_outgoing action sid message (w : World) :
  outgoing_message_queue_ (PostIncomingMessage action sid message w)
  = outgoing_message_queue_ w.
Proof.
  unfold PostIncomingMessage. simpl.
  by destruct (bool_decide (incoming_message_queue_ w = [])).
Qed.

Lemma kills_transport_calls (queue : MessageQueue TransportAction.t) :
  occurrences (is_event TerminateConnections)
              (concat (transport_calls <$> queue))
  = length (List.filter is_kill queue).
Proof.
  induction queue as [|[[action sid] message] queue IH]; [done|].
  change (occurrences (is_event TerminateConnections)
            (transport_calls (action, sid, message)
             ++ concat (transport_calls <$> queue))
          = length (List.filter is_kill ((action, sid, message) :: queue))).
  rewrite occurrences_app, IH. by destruct action.
Qed.

Lemma kills_Write action sid message (w : World) :
  kills_seen (Write action sid message w)
  = kills_seen w + (if bool_decide (action = TransportAction.kKill) then 1 else 0).
Proof.
  unfold kills_seen.
  rewrite Write_trace, Write_outgoing, occurrences_app, List.filter_app,
    length_app.
  generalize (bool_decide (outgoing_message_queue_ w = [])). intros b.
  assert (occurrences (is_event TerminateConnections)
            [Appended Outgoing b; IoAsyncSend] = 0) as -> by (by destruct b).
  assert (length (List.filter is_kill [(action, sid, message)])
          = if bool_decide (action = TransportAction.kKill) then 1 else 0)
    as -> by (unfold is_kill; simpl; by case_bool_decide).
  lia.
Qed.

(** No atom writes or applies a [Kill]. *)
Lemma kills_atom (w w' : World) : atom w w' → kills_seen w' = kills_seen w.
Proof.
  destruct 1; try done.
  - rewrite kills_Write. rewrite bool_decide_eq_false_2 by done. lia.
  - unfold kills_seen.
    rewrite PostIncomingMessage_trace, PostIncomingMessage_outgoing,
      occurrences_app.
    assert (∀ es, es = [] ∨ es = [CallOnForegroundThread; RequestInterrupt;
                                  MainAsyncSend] →
      occurrences (is_event TerminateConnections)
        (Appended Incoming (bool_decide (incoming_message_queue_ w = []))
         :: es ++ [Broadcast]) = 0) as Hnone.
    { intros es [-> | ->];
        by destruct (bool_decide (incoming_message_queue_ w = [])). }
    rewrite Hnone; [lia|].
    destruct (bool_decide (incoming_message_queue_ w = [])); tauto.
  - unfold kills_seen. destruct (IoThreadAsyncCb_trace w) as [-> _].
    unfold IoThreadAsyncCb. destruct (delegate w).
    + simpl.
      destruct (transport_calls_trace (outgoing_message_queue_ w)
                  (set_outgoing_message_queue_ [] w)) as (_ & _ & _ & ->).
      rewrite occurrences_app, kills_transport_calls. simpl. lia.
    + by rewrite app_nil_r.
  - unfold kills_seen. simpl. rewrite occurrences_app.
    rewrite (occurrences_none _ es); [lia|].
    intros e He. apply (bookkeeping_all _ _ H0) in He. by destruct e.
Qed.

Lemma kills_atoms (w w' : World) :
  rtc atom w w' → kills_seen w' = kills_seen w.
Proof.
  induction 1 as [|w w1 w2 Hatom _ IH]; [done|].
  by rewrite IH, (kills_atom _ _ Hatom).
Qed.

(** No atom takes the bridge back to [kNew]. *)
Lemma started_atom (w w' : World) :
  atom w w' → state_ w ≠ kNew → state_ w' ≠ kNew.
Proof.
  destruct 1; try done.
  - by destruct (PostIncomingMessage_keeps action session_id message w)
      as [(-> & _) _].
  - by destruct (IoThreadAsyncCb_keeps w) as (-> & _).
Qed.

Lemma started_atoms (w w' : World) :
  rtc atom w w' → state_ w ≠ kNew → state_ w' ≠ kNew.
Proof. induction 1; eauto using started_atom. Qed.

End StopFacts.

(** ** The bridge as a whole *)

Lemma CHECK_returns {A : Type} (c : bool) (k : Outcome A) (a : A) :
  (CHECK c;; k) = Returns a → c = true ∧ k = Returns a.
Proof. by destruct c. Qed.

Section Claims.
Context `{Collaborators}.

(** *** The session table and the state *)

(** C2 (as amended). [kAccepting] does not mean that the table is empty:
    a processed [StartSession] or [StartSessionUnconditionally] leaves the
    state as it is and puts a session in the table.  Every other task, every
    turn of the I/O thread and [WaitForDisconnect] keep the implication
    from [kAccepting] to an empty table. *)
Theorem accepting_until_attach :
  (∀ task (w : World), is_start task = true →
     state_ (process task w) = state_ w ∧ sessions_ (process task w) ≠ ∅)
  ∧ (∀ task (w : World), is_start task = false →
       accepting_means_no_session w →
       accepting_means_no_session (process task w))
  ∧ (∀ s (w : World),
       accepting_means_no_session w → accepting_means_no_session (io_step s w))
  ∧ (∀ w : World, accepting_means_no_session (WaitForDisconnect w)).
Proof.
  unfold accepting_means_no_session. split; [|split; [|split]].
  - intros task w Hstart.
    destruct task as [[[] id] message]; try done; simpl;
      unfold Attach; destruct (agent_Connect _ _); simpl;
      (split; [done|apply insert_non_empty]).
  - intros task w Hstart Hinv.
    destruct task as [[[] id] message]; try done; simpl.
    + destruct (sessions_ w !! id) as [[session|]|]; [|done..].
      by destruct (Dispatch_keeps session message w) as (_ & -> & ->).
    + repeat case_bool_decide; simpl; try done.
      all: intros Hacc; rewrite (Hinv Hacc); apply delete_empty.
  - intros s w Hinv. by destruct (io_step_keeps s w) as (-> & -> & _).
  - intros w. unfold WaitForDisconnect. by repeat case_bool_decide.
Qed.

(** *** The notice on stderr *)

Lemma answers_trace (answers : list (Z * StringBuffer)) (w : World) :
  ∃ e, trace (foldl (λ w answer, SendMessageToFrontend answer.1 answer.2 w)
                    w answers) = trace w ++ e
       ∧ attach_notices e = 0.
Proof.
  revert w. induction answers as [|a answers IH]; intros w; simpl.
  - exists []. by rewrite app_nil_r.
  - destruct (IH (SendMessageToFrontend a.1 a.2 w)) as (e & -> & He).
    unfold SendMessageToFrontend. rewrite Write_trace, <- app_assoc.
    eexists. split; [done|]. unfold attach_notices in *.
    rewrite occurrences_app, He.
    by destruct (bool_decide (outgoing_message_queue_ w = [])).
Qed.

Lemma process_notices task (w : World) :
  extends_with (λ e, attach_notices e = if is_start task then 1 else 0)
               w (process task w).
Proof.
  destruct task as [[action id] message]. unfold extends_with.
  destruct action; simpl.
  - unfold Attach. destruct (agent_Connect _ _). simpl.
    rewrite <- !app_assoc. eexists. split; [done|].
    by destruct (bool_decide (outgoing_message_queue_ w = [])).
  - unfold Attach. destruct (agent_Connect _ _). simpl.
    rewrite <- !app_assoc. by eexists.
  - destruct (sessions_ w !! id) as [[session|]|];
      [|exists []; by rewrite app_nil_r..].
    unfold Dispatch. destruct (session_Dispatch _ _ _) as [agent' answers].
    destruct (answers_trace answers
      (set_agent agent' (emit [SessionDispatch session message] w)))
      as (e & -> & He).
    simpl. rewrite <- app_assoc. eexists. split; [done|].
    unfold attach_notices in *. by rewrite occurrences_app, He.
  - exists []. rewrite app_nil_r. by repeat case_bool_decide.
Qed.

(** C4 (as amended). ["Debugger attached.\n"] goes to stderr at every
    attach: when the tasks of a drain buffer are processed, it is printed
    once for each [StartSession] or [StartSessionUnconditionally] among
    them. *)
Theorem attach_notice_at_every_attach (tasks : MessageQueue InspectorAction.t)
    (w : World) :
  attach_notices (since w (drain tasks w))
  = length (List.filter is_start tasks).
Proof.
  apply (extends_with_since
           (λ e, attach_notices e = length (List.filter is_start tasks))).
  unfold extends_with.
  revert w. induction tasks as [|task rest IH]; intros w; simpl.
  - exists []. by rewrite app_nil_r.
  - destruct (IH (process task (set_dispatching_message_queue_ rest w)))
      as (e2 & -> & He2).
    destruct (process_notices task (set_dispatching_message_queue_ rest w))
      as (e1 & -> & He1).
    exists (e1 ++ e2). split; [by rewrite app_assoc|].
    unfold attach_notices in *. rewrite occurrences_app, He1, He2.
    by destruct (is_start task).
Qed.

(** *** The resume command *)

(** C5 (as amended). [MessageReceived] always posts the message as a
    [SendMessage] task.  A delegate that waits resumes the startup exactly
    when the message contains the method name between double quotes; the
    name without the quotes is not enough.  Over any run of the I/O thread
    [ResumeStartup] is called once at most. *)
Theorem resume_on_quoted_command :
  (∀ sid message d (w : World),
     let r := MessageReceived sid message d w in
     incoming_message_queue_ r.2
     = incoming_message_queue_ w
       ++ [(InspectorAction.kSendMessage, sid, Utf8ToStringView message)]
     ∧ (waiting_ d = true ∧ contains message resume_command →
          waiting_ r.1 = false ∧ resumes (since w r.2) = 1)
     ∧ (¬ (waiting_ d = true ∧ contains message resume_command) →
          r.1 = d ∧ resumes (since w r.2) = 0))
  ∧ (∀ steps (w : World), resumes (since w (io_steps steps w)) ≤ 1).
Proof.
  split; [apply MessageReceived_cases|].
  intros steps w. destruct (io_steps_resumes steps w) as (e & He & Hle).
  rewrite (since_extended _ _ _ He). destruct (still_waiting w); lia.
Qed.

(** *** [Start] and [Stop] *)

(** C10. [Start] asserts that the state is [kNew]: called in any other
    state it aborts, whatever the environment does, and never returns
    false.  A call that returns was made in [kNew] and leaves the bridge in
    another state, as does [Stop]; so a second [Start], or a [Start] after
    [Stop] or after a failure to bind, aborts. *)
Theorem Start_requires_kNew (env : StartEnv)
    (arrivals : list (list IoThreadStep)) (w : World) :
  (state_ w ≠ kNew → Start env arrivals w = Aborts)
  ∧ (∀ b w', Start env arrivals w = Returns (b, w') →
       state_ w = kNew ∧ state_ w' ≠ kNew)
  ∧ (∀ senv w', Stop senv w = Returns w' → state_ w' ≠ kNew).
Proof.
  split; [|split].
  - intros Hstate. unfold Start, CHECK.
    by rewrite (bool_decide_eq_false_2 _ Hstate).
  - intros b w'. unfold Start.
    intros [Hnew%bool_decide_eq_true [_ Hrest]%CHECK_returns]%CHECK_returns.
    split; [done|]. revert Hrest.
    destruct (thread_start_sem_ (ThreadMain env w)) as [|n]; [done|].
    case_bool_decide as Herr; intros [= <- <-]; [by rewrite Herr|].
    case_match.
    + eapply started_atoms; [apply atoms_DispatchMessages|done].
    + done.
  - intros senv w'. unfold Stop. intros [_ Hrest]%CHECK_returns.
    revert Hrest. destruct (thread_exits senv); simpl; [|done].
    intros [_ [= <-]]%CHECK_returns.
    eapply started_atoms; [apply atoms_DispatchMessages|done].
Qed.


End Claims.


(** ** The model at work *)

Example uuid_of_zero_entropy :
  Uuid.GenerateID (Some (repeat Byte.x00 16))
  = Returns "00000000-0000-4000-8000-000000000000".
Proof. reflexivity. Qed.

Example uuid_of_full_entropy :
  Uuid.GenerateID (Some (repeat Byte.xff 16))
  = Returns "ffffffff-ffff-4fff-bfff-ffffffffffff".
Proof. reflexivity. Qed.

Example started_is_accepting :
  Start example_start_env [] (InspectorIo_new false 0%nat)
  = Returns (true, example_started)
  ∧ state_ example_started = kAccepting ∧ sessions_ example_started = ∅.
Proof. vm_compute. done. Qed.

(** A session is attached: the server is told to accept it. *)
Example attached_accepts :
  outgoing_message_queue_ example_attached
  = [(TransportAction.kAcceptSession, 1%Z, empty_view)]
  ∧ since example_attached (IoThreadAsyncCb example_attached)
    = [AcceptSession 1].
Proof. vm_compute. done. Qed.

(** The server fails to bind: [Start] returns false in [kError], after the
    delegate is destroyed or before. *)
Example bind_failure :
  Start (example_failed_env true) [] (InspectorIo_new false 0%nat)
  = Returns (false,
             set_state_ kError
               (emit [ServerDone] (InspectorIo_new false 0%nat)))
  ∧ Start (example_failed_env false) [] (InspectorIo_new false 0%nat)
    = Returns (false,
               set_delegate (Some {| session_id_ := 0; waiting_ := false |})
                 (set_state_ kError (InspectorIo_new false 0%nat))).
Proof. vm_compute. done. Qed.

(** Wait-for-connect: [Start] waits until a client has sent the resume
    command, and for ever if none does. *)
Example wait_for_connect_resumed :
  let message := "{" +:+ double_quote +:+ "method" +:+ double_quote +:+ ":"
                 +:+ resume_command +:+ "}" in
  let started :=
    Start {| thread_create_err := 0; server_starts := true;
             server_port := 9229;
             first_steps := [OnStartSession 7 EmptyString;
                             OnMessageReceived 7 message];
             io_thread_returned := false |} []
          (InspectorIo_new true 0%nat) in
  (r ← started;
   mret (r.1, state_ r.2, dom (sessions_ r.2), resumes (trace r.2)))
  = Returns (true, kAccepting, {[7%Z]}, 1).
Proof. vm_compute. done. Qed.

Example wait_for_connect_blocks :
  Start {| thread_create_err := 0; server_starts := true; server_port := 9229;
           first_steps := [OnStartSession 7 EmptyString];
           io_thread_returned := false |} []
        (InspectorIo_new true 0%nat)
  = Blocks.
Proof. vm_compute. done. Qed.

(** C1, counterexample: a [Write] to an outgoing queue that already holds a
    message wakes the I/O thread although [AppendMessage] returned false. *)
Lemma Write_wakes_on_nonempty_queue :
  let w1 := Write TransportAction.kSendMessage 1 [104%Z] example_started in
  let w2 := Write TransportAction.kSendMessage 1 [105%Z] w1 in
  outgoing_message_queue_ w1 ≠ []
  ∧ (AppendMessage (outgoing_message_queue_ w1)
                   TransportAction.kSendMessage 1 [105%Z]).1 = false
  ∧ appends_on_empty Outgoing (since w1 w2) = 0
  ∧ io_wakeups (since w1 w2) = 1.
Proof. vm_compute. done. Qed.

(** C2, counterexample: after [Start], a [StartSession] from the server
    and a dispatch, the bridge is in [kAccepting] with a session in the
    table. *)
Lemma accepting_with_a_session :
  accepting_means_no_session example_started
  ∧ state_ example_attached = kAccepting
  ∧ sessions_ example_attached !! 1%Z = Some (Some 0)
  ∧ ¬ accepting_means_no_session example_attached.
Proof.
  assert (Hstate : state_ example_attached = kAccepting) by (by vm_compute).
  assert (Hsession : sessions_ example_attached !! 1%Z = Some (Some 0))
    by (by vm_compute).
  split; [intros _; by vm_compute|]. split; [done|]. split; [done|].
  intros Hinv. specialize (Hinv Hstate). by rewrite Hinv in Hsession.
Qed.


(** C4, counterexample: two attaches, two notices. *)
Lemma second_attach_prints_again :
  attach_notices
    (since example_started
       (drain [(InspectorAction.kStartSession, 1%Z, []);
               (InspectorAction.kStartSession, 2%Z, [])] example_started))
  = 2.
Proof. by vm_compute. Qed.

(** C5, counterexample: a message that contains the method name without
    the quotes leaves a waiting delegate waiting. *)
Lemma bare_command_does_not_resume :
  let w := example_started in
  let r := MessageReceived 7 bare_resume_command example_waiting_delegate w in
  contains bare_resume_command bare_resume_command
  ∧ waiting_ example_waiting_delegate = true
  ∧ waiting_ r.1 = true
  ∧ resumes (since w r.2) = 0.
Proof.
  split; [|by vm_compute].
  exists EmptyString, EmptyString. reflexivity.
Qed.

(** *** The theorems with hypotheses, applied to the examples *)

(** The started bridge keeps the implication over an [EndSession] and
    loses it over a [StartSession]. *)
Lemma accepting_until_attach_witness :
  accepting_means_no_session example_started
  ∧ accepting_means_no_session
      (process (InspectorAction.kEndSession, 1%Z, []) example_started)
  ∧ sessions_ (process (InspectorAction.kStartSession, 1%Z, [])
                       example_started) ≠ ∅.
Proof.
  assert (Hinv : accepting_means_no_session example_started)
    by (intros _; by vm_compute).
  destruct accepting_until_attach as (Hattach & Hkeep & _).
  split; [exact Hinv|]. split.
  - apply Hkeep; [reflexivity|exact Hinv].
  - apply Hattach. reflexivity.
Defined.


(** A waiting delegate receives the quoted method name. *)
Lemma resume_on_quoted_command_witness :
  let r := MessageReceived 7 resume_command example_waiting_delegate
                           example_started in
  (waiting_ example_waiting_delegate = true
   ∧ contains resume_command resume_command)
  ∧ waiting_ r.1 = false
  ∧ resumes (since example_started r.2) = 1.
Proof.
  assert (Hcue : waiting_ example_waiting_delegate = true
                 ∧ contains resume_command resume_command).
  { split; [reflexivity|]. exists EmptyString, EmptyString.
    vm_compute. reflexivity. }
  destruct resume_on_quoted_command as [Hreceived _].
  destruct (Hreceived 7%Z resume_command example_waiting_delegate
              example_started) as (_ & Hyes & _).
  split; [exact Hcue|]. exact (Hyes Hcue).
Defined.

(** The only session of an accepting bridge ends. *)
Lemma end_session_state_witness :
  delete 1%Z (sessions_ example_attached) = ∅
  ∧ state_ (process (InspectorAction.kEndSession, 1%Z, []) example_attached)
    = kAccepting.
Proof.
  assert (Hlast : delete 1%Z (sessions_ example_attached) = ∅)
    by (vm_compute; reflexivity).
  split; [exact Hlast|].
  destruct (end_session_state 1%Z [] example_attached Hlast)
    as (_ & Hstate & _).
  exact Hstate.
Defined.

(** A message for session 99, which never existed, and one for session 1,
    which is attached. *)
Lemma send_to_vanished_session_dropped_witness :
  (sessions_ example_started !! 99%Z = None
   ∧ process (InspectorAction.kSendMessage, 99%Z, [120%Z]) example_started
     = example_started)
  ∧ (sessions_ example_attached !! 1%Z = Some (Some 0)
     ∧ ∃ writes,
         since example_attached
               (process (InspectorAction.kSendMessage, 1%Z, [120%Z])
                        example_attached)
         = SessionDispatch 0 [120%Z] :: writes).
Proof.
  assert (Hgone : sessions_ example_started !! 99%Z = None)
    by (vm_compute; reflexivity).
  assert (Hthere : sessions_ example_attached !! 1%Z = Some (Some 0))
    by (vm_compute; reflexivity).
  split; (split; [done|]).
  - apply (send_to_vanished_session_dropped 99%Z [120%Z] example_started).
    by left.
  - by apply (send_to_vanished_session_dropped 1%Z [120%Z] example_attached).
Defined.

(** [Start] on a bridge that was started already. *)
Lemma Start_requires_kNew_witness :
  state_ example_started ≠ kNew
  ∧ Start example_start_env [] example_started = Aborts.
Proof.
  assert (Hstarted : state_ example_started ≠ kNew) by (by vm_compute).
  split; [exact Hstarted|].
  apply Start_requires_kNew. exact Hstarted.
Defined.

(** * Further properties *)

(** ** Order and idleness of the two queues *)

Section Fifo.
Context `{Collaborators}.

#[local] Instance same_core_equiv : Equivalence same_core.
Proof.
  split.
  - done.
  - intros w1 w2 (?&?&?&?&?). by repeat split.
  - intros w1 w2 w3 (?&?&?&?&?) (?&?&?&?&?). repeat split; congruence.
Qed.

Lemma Write_same_core action sid message (w1 w2 : World) :
  same_core w1 w2 →
  same_core (Write action sid message w1) (Write action sid message w2).
Proof.
  intros (Hs & Hm & Ho & Ha & Ht). unfold same_core, Write. simpl.
  by rewrite Hs, Hm, Ho, Ha, Ht.
Qed.

Lemma answers_same_core (answers : list (Z * StringBuffer)) (w1 w2 : World) :
  same_core w1 w2 →
  same_core
    (foldl (λ w answer, SendMessageToFrontend answer.1 answer.2 w) w1 answers)
    (foldl (λ w answer, SendMessageToFrontend answer.1 answer.2 w) w2 answers).
Proof.
  revert w1 w2. induction answers as [|a answers IH]; intros w1 w2 Hw; [done|].
  simpl. apply IH. by apply Write_same_core.
Qed.

Lemma process_same_core task (w1 w2 : World) :
  same_core w1 w2 → same_core (process task w1) (process task w2).
Proof.
  intros Hw. pose proof Hw as (Hs & Hm & Ho & Ha & Ht).
  destruct task as [[action id] message]. destruct action; simpl.
  - unfold Attach. simpl. rewrite Ha.
    destruct (agent_Connect (agent w2) id) as [agent' session].
    apply Write_same_core. unfold same_core. simpl.
    by rewrite Hs, Hm, Ho, Ht.
  - unfold Attach. simpl. rewrite Ha.
    destruct (agent_Connect (agent w2) id) as [agent' session].
    unfold same_core. simpl. by rewrite Hs, Hm, Ho, Ht.
  - rewrite Hm. destruct (sessions_ w2 !! id) as [[session|]|]; [|done..].
    unfold Dispatch. simpl. rewrite Ha.
    destruct (session_Dispatch (agent w2) session message)
      as [agent' answers].
    apply answers_same_core. unfold same_core. simpl.
    by rewrite Hs, Hm, Ho, Ht.
  - rewrite Hm, Hs. unfold same_core.
    repeat case_bool_decide; simpl; by rewrite ?Hm, ?Hs, ?Ho, ?Ha, ?Ht.
Qed.

Lemma run_tasks_same_core tasks (w1 w2 : World) :
  same_core w1 w2 → same_core (run_tasks tasks w1) (run_tasks tasks w2).
Proof.
  revert w1 w2. induction tasks as [|task rest IH]; intros w1 w2 Hw; [done|].
  apply IH. by apply process_same_core.
Qed.

Lemma run_tasks_app tasks1 tasks2 (w : World) :
  run_tasks (tasks1 ++ tasks2) w = run_tasks tasks2 (run_tasks tasks1 w).
Proof. apply foldl_app. Qed.

Lemma drain_same_core tasks (w1 w2 : World) :
  same_core w1 w2 → same_core (drain tasks w1) (run_tasks tasks w2).
Proof.
  revert w1 w2. induction tasks as [|task rest IH]; intros w1 w2 Hw.
  - done.
  - simpl. apply IH. by apply process_same_core.
Qed.

Lemma round_same_core (w : World) :
  same_core (round w).2 (run_tasks (round_tasks w) w).
Proof.
  unfold round, round_tasks. cbn [snd].
  case_bool_decide; simpl; by apply drain_same_core.
Qed.

(** With the I/O thread quiet the loop works through the drain buffer and
    then through the incoming queue, each task once and in order. *)
Lemma do_while_quiet fuel (w : World) :
  queue_load w ≤ fuel →
  same_core (do_while fuel [] w)
            (run_tasks (dispatching_message_queue_ w
                        ++ incoming_message_queue_ w) w).
Proof.
  revert w. induction fuel as [|fuel IH]; intros w Hfuel;
    rewrite do_while_unfold;
    destruct (round_spec w) as (Hhad & Hinc & Hdisp & _);
    pose proof (round_same_core w) as Hcore;
    rewrite Hhad; unfold queue_load, round_tasks in *.
  - destruct (decide (dispatching_message_queue_ w = [])) as [Hd|Hd];
      [rewrite (bool_decide_eq_true_2 _ Hd) in *
      |rewrite (bool_decide_eq_false_2 _ Hd) in *; lia].
    destruct (decide (incoming_message_queue_ w = [])) as [Hi|Hi];
      [rewrite (bool_decide_eq_true_2 _ Hi) in *
      |rewrite (bool_decide_eq_false_2 _ Hi) in *; lia].
    simpl. by rewrite Hd, Hi in *.
  - change (io_steps (default [] (head [])) (round w).2) with (round w).2.
    change (tail (@nil (list IoThreadStep))) with (@nil (list IoThreadStep)).
    assert (Hnext : same_core
      (do_while fuel [] (round w).2)
      (run_tasks (incoming_message_queue_ (round w).2) (round w).2)).
    { specialize (IH (round w).2). rewrite Hdisp in IH. apply IH.
      rewrite Hinc.
      repeat case_bool_decide; simplify_eq; simpl in *; lia. }
    destruct (decide (dispatching_message_queue_ w = [])) as [Hd|Hd].
    + rewrite (bool_decide_eq_true_2 _ Hd) in *. rewrite Hd. simpl.
      rewrite Hinc in Hnext.
      destruct (negb _); [by etrans|done].
    + rewrite (bool_decide_eq_false_2 _ Hd) in *.
      rewrite (bool_decide_eq_false_2 _ Hd). simpl.
      rewrite Hinc in Hnext. rewrite run_tasks_app.
      etrans; [exact Hnext|]. by apply run_tasks_same_core.
Qed.

Lemma io_frame_trans (w1 w2 w3 : World) :
  io_frame w1 w2 → io_frame w2 w3 → io_frame w1 w3.
Proof.
  intros (?&?&?&?&?&?) (?&?&?&?&?&?). repeat split; congruence.
Qed.

Lemma post_all_incoming posts (w : World) :
  incoming_message_queue_ (post_all posts w)
  = incoming_message_queue_ w ++ (posted <$> posts)
  ∧ io_frame w (post_all posts w).
Proof.
  revert w. induction posts as [|p posts IH]; intros w.
  - split; [by rewrite app_nil_r|done].
  - change (post_all (p :: posts) w)
      with (post_all posts (PostIncomingMessage p.1.1 p.1.2 p.2 w)).
    destruct (IH (PostIncomingMessage p.1.1 p.1.2 p.2 w)) as [-> Hframe].
    rewrite PostIncomingMessage_incoming, <- app_assoc. split; [done|].
    eapply io_frame_trans; [apply PostIncomingMessage_keeps|exact Hframe].
Qed.

(** The tasks the delegate posts are processed once each and in the order
    they were posted, after what was pending before them; the dispatch
    leaves both queues empty. *)
Theorem incoming_tasks_in_order
    (posts : list (InspectorAction.t * Z * string)) (w : World) :
  dispatching_messages_ w = false →
  let w1 := post_all posts w in
  let w' := DispatchMessages [] w1 in
  same_core w'
    (run_tasks (dispatching_message_queue_ w ++ incoming_message_queue_ w
                ++ (posted <$> posts)) w1)
  ∧ incoming_message_queue_ w' = []
  ∧ dispatching_message_queue_ w' = []
  ∧ dispatching_messages_ w' = false.
Proof.
  intros Hflag. cbv zeta.
  destruct (post_all_incoming posts w) as [Hinc (_ & _ & Hbuf & Hflag1 & _)].
  rewrite Hflag in Hflag1.
  split; [|split; [|split]].
  - unfold DispatchMessages. rewrite Hflag1. cbn [length plus].
    rewrite <- Hinc, <- Hbuf.
    set (w0 := set_dispatching_messages_ true (post_all posts w)).
    assert (Hw0 : same_core w0 (post_all posts w)) by done.
    etrans; [|apply run_tasks_same_core, Hw0].
    etrans; [|apply (do_while_quiet 2 w0)].
    + done.
    + unfold queue_load. repeat case_bool_decide; lia.
  - by apply DispatchMessages_drained.
  - by apply DispatchMessages_drained.
  - unfold DispatchMessages. by rewrite Hflag1.
Qed.

(** A dispatch that finds nothing pending changes nothing, whatever the I/O
    thread is about to do. *)
Lemma DispatchMessages_idle arrivals (w : World) :
  dispatching_messages_ w = false →
  incoming_message_queue_ w = [] → dispatching_message_queue_ w = [] →
  DispatchMessages arrivals w = w.
Proof.
  intros Hflag Hinc Hdisp. unfold DispatchMessages. rewrite Hflag.
  rewrite do_while_unfold. unfold round. simpl.
  rewrite Hdisp, Hinc. simpl.
  destruct w. simpl in *. by subst.
Qed.


Lemma write_all_outgoing writes (w : World) :
  outgoing_message_queue_ (write_all writes w)
  = outgoing_message_queue_ w ++ writes
  ∧ delegate (write_all writes w) = delegate w.
Proof.
  revert w. induction writes as [|[[action sid] message] writes IH]; intros w.
  - by rewrite app_nil_r.
  - change (write_all ((action, sid, message) :: writes) w)
      with (write_all writes (Write action sid message w)).
    destruct (IH (Write action sid message w)) as [-> ->].
    by rewrite Write_outgoing, <- app_assoc.
Qed.

(** The I/O thread applies the actions of the outgoing queue to the
    transport in the order they were written and leaves the queue empty;
    without a transport it leaves everything as it is. *)
Theorem outgoing_actions_in_order (writes : list (Message TransportAction.t))
    (w : World) :
  let w1 := write_all writes w in
  (delegate w ≠ None →
     since w1 (IoThreadAsyncCb w1)
     = concat (transport_calls <$> (outgoing_message_queue_ w ++ writes))
     ∧ outgoing_message_queue_ (IoThreadAsyncCb w1) = [])
  ∧ (delegate w = None → IoThreadAsyncCb w1 = w1).
Proof.
  cbv zeta. destruct (write_all_outgoing writes w) as [Hout Hdel]. split.
  - intros Hserver.
    destruct (IoThreadAsyncCb_trace (write_all writes w)) as [Ht _].
    rewrite (since_extended _ _ _ Ht), Hdel, Hout.
    destruct (delegate w) as [d|] eqn:Hd; [|done]. split; [done|].
    unfold IoThreadAsyncCb. rewrite Hdel. simpl.
    by destruct (transport_calls_trace
                   (outgoing_message_queue_ (write_all writes w))
                   (set_outgoing_message_queue_ [] (write_all writes w)))
      as (_ & _ & _ & ->).
  - intros Hnone. unfold IoThreadAsyncCb. by rewrite Hdel, Hnone.
Qed.

(** *** Broadcasts *)

Lemma broadcast_per_append_app e1 e2 :
  broadcast_per_append e1 → broadcast_per_append e2 →
  broadcast_per_append (e1 ++ e2).
Proof.
  unfold broadcast_per_append, broadcasts, appends.
  rewrite !occurrences_app. lia.
Qed.

Lemma broadcast_atom (w w' : World) :
  atom w w' → extends_with broadcast_per_append w w'.
Proof.
  destruct 1;
    try (exists []; split; [by rewrite app_nil_r|done]).
  - eexists. split; [apply Write_trace|].
    by destruct (bool_decide (outgoing_message_queue_ w = [])).
  - eexists. split; [apply PostIncomingMessage_trace|].
    by destruct (bool_decide (incoming_message_queue_ w = [])).
  - eexists. split; [apply IoThreadAsyncCb_trace|].
    destruct (delegate w); [|done].
    induction (outgoing_message_queue_ w) as [|[[action sid] message] q IH];
      [done|].
    change (broadcast_per_append
              (transport_calls (action, sid, message)
               ++ concat (transport_calls <$> q))).
    apply broadcast_per_append_app; [by destruct action|done].
  - exists es. split; [done|].
    unfold broadcast_per_append, broadcasts, appends.
    rewrite !occurrences_none; [done|..]; intros e He;
      apply (bookkeeping_all _ _ H0) in He; by destruct e.
Qed.

Lemma broadcast_atoms (w w' : World) :
  rtc atom w w' → extends_with broadcast_per_append w w'.
Proof.
  induction 1 as [w|w w1 w2 Hatom _ (e2 & He2 & HP2)].
  - exists []. split; [by rewrite app_nil_r|done].
  - destruct (broadcast_atom _ _ Hatom) as (e1 & He1 & HP1).
    exists (e1 ++ e2). split; [by rewrite He2, He1, app_assoc|].
    by apply broadcast_per_append_app.
Qed.

Lemma atoms_call c (w : World) :
  writes_kill c = false → rtc atom w (call c w).
Proof.
  destruct c; simpl; intros Hkill.
  - apply rtc_once. constructor. by apply bool_decide_eq_false in Hkill.
  - apply rtc_once. constructor.
  - by apply atoms_io_steps.
  - apply atoms_DispatchMessages.
  - apply atoms_WaitForDisconnect.
Qed.

(** Over any sequence of calls, the condition variable is broadcast once
    for every append to the incoming queue, whether it found the queue
    empty or not. *)
Theorem broadcast_for_every_post (cs : list Call) (w : World) :
  broadcasts (since w (calls cs w)) = appends Incoming (since w (calls cs w)).
Proof.
  apply (extends_with_since broadcast_per_append).
  revert w. induction cs as [|c cs IH]; intros w.
  - exists []. split; [by rewrite app_nil_r|done].
  - assert (Hc : extends_with broadcast_per_append w (call c w)).
    { destruct (writes_kill c) eqn:Hkill.
      - destruct c; try done. simpl. eexists. split; [apply Write_trace|].
        by destruct (bool_decide (outgoing_message_queue_ w = [])).
      - by apply broadcast_atoms, atoms_call. }
    destruct Hc as (e1 & He1 & HP1).
    destruct (IH (call c w)) as (e2 & He2 & HP2).
    exists (e1 ++ e2). split.
    + change (calls (c :: cs) w) with (calls cs (call c w)).
      by rewrite He2, He1, app_assoc.
    + by apply broadcast_per_append_app.
Qed.

(** *** Who terminates the connections *)

Lemma atoms_calls cs (w : World) :
  forallb (λ c, negb (writes_kill c)) cs = true → rtc atom w (calls cs w).
Proof.
  revert w. induction cs as [|c cs IH]; intros w; simpl; [done|].
  intros [Hc Hcs]%andb_prop. etrans; [|by apply IH].
  apply atoms_call. by destruct (writes_kill c).
Qed.

(** Connections are terminated for a [Kill] only, and only [Stop] writes
    one: if no [Kill] waits in the outgoing queue, no sequence of other
    calls makes the I/O thread call [TerminateConnections], and none puts
    a [Kill] in the queue. *)
Theorem connections_survive_without_Stop (cs : list Call) (w : World) :
  forallb (λ c, negb (writes_kill c)) cs = true →
  List.filter is_kill (outgoing_message_queue_ w) = [] →
  occurrences (is_event TerminateConnections) (since w (calls cs w)) = 0
  ∧ List.filter is_kill (outgoing_message_queue_ (calls cs w)) = [].
Proof.
  intros Hcs Hqueue. pose proof (atoms_calls cs w Hcs) as Hatoms.
  pose proof (kills_atoms _ _ Hatoms) as Hkills.
  destruct (wakeups_atoms _ _ Hatoms) as (e & He & _).
  rewrite (since_extended _ _ _ He).
  unfold kills_seen in Hkills.
  rewrite He, occurrences_app, Hqueue in Hkills. simpl in Hkills.
  split; [lia|]. apply length_zero_iff_nil. lia.
Qed.

End Fifo.

(** ** Sessions, the state, and the edges of [Start] and [Stop] *)

Section Sessions.
Context `{Collaborators}.

(** ** The session table *)

(** A session that has ended is gone from the table and messages for it are
    dropped from then on; starting or ending a session leaves the other
    sessions alone; a session started and ended leaves the table as it was
    without it. *)
Theorem session_ends_for_good (sid : Z) (payload : StringBuffer) (w : World) :
  let started := process (InspectorAction.kStartSession, sid, payload) w in
  let ended := process (InspectorAction.kEndSession, sid, payload) w in
  sessions_ ended !! sid = None
  ∧ (∀ message,
       process (InspectorAction.kSendMessage, sid, message) ended = ended)
  ∧ (∀ sid', sid' ≠ sid →
       sessions_ started !! sid' = sessions_ w !! sid'
       ∧ sessions_ ended !! sid' = sessions_ w !! sid')
  ∧ sessions_ (process (InspectorAction.kEndSession, sid, payload) started)
    = delete sid (sessions_ w).
Proof.
  cbv zeta.
  assert (Hended : sessions_ (process (InspectorAction.kEndSession, sid,
                                       payload) w)
                   = delete sid (sessions_ w)).
  { simpl. by repeat case_bool_decide. }
  assert (Hstarted : sessions_ (process (InspectorAction.kStartSession, sid,
                                         payload) w)
                     = <[sid := (agent_Connect (agent w) sid).2]>
                         (sessions_ w)).
  { simpl. unfold Attach. by destruct (agent_Connect _ _). }
  split; [by rewrite Hended, lookup_delete_eq|].
  split.
  { intros message.
    change (process (InspectorAction.kSendMessage, sid, message) ?w0)
      with (match sessions_ w0 !! sid with
            | Some (Some session) => Dispatch session message w0
            | _ => w0
            end).
    by rewrite Hended, lookup_delete_eq. }
  split.
  { intros sid' Hne.
    by rewrite Hstarted, Hended, lookup_insert_ne, lookup_delete_ne. }
  assert (Hagain : ∀ w0 : World,
    sessions_ (process (InspectorAction.kEndSession, sid, payload) w0)
    = delete sid (sessions_ w0)).
  { intros w0. simpl. by repeat case_bool_decide. }
  by rewrite Hagain, Hstarted, delete_insert_eq.
Qed.

(** ** The state under dispatch *)

(** One task keeps the state, or moves [kShutDown] to [kDone], or moves
    another state to [kAccepting]. *)
Lemma abstract_step_state task (s : State) (ids : gset Z) :
  let s' := (abstract_step task (s, ids)).1 in
  s' = s ∨ (s = kShutDown ∧ s' = kDone) ∨ (s ≠ kShutDown ∧ s' = kAccepting).
Proof.
  destruct task as [[action id] message].
  destruct action; simpl; repeat case_bool_decide; simpl; tauto.
Qed.

Lemma abstract_run_state tasks (s : State) (ids : gset Z) :
  let s' := (abstract_run tasks (s, ids)).1 in
  (s' = s ∨ s' = kDone ∨ s' = kAccepting)
  ∧ (s' = kDone → s = kShutDown ∨ s = kDone).
Proof.
  revert s ids. induction tasks as [|task rest IH]; intros s ids.
  - simpl. tauto.
  - rewrite abstract_run_cons.
    pose proof (abstract_step_state task s ids) as Hstep.
    destruct (abstract_step task (s, ids)) as [s1 ids1]. simpl in Hstep.
    destruct (IH s1 ids1) as [Hmove Hdone]. cbv zeta.
    split.
    + destruct Hstep as [-> | [[_ ->] | [_ ->]]]; tauto.
    + intros Hs'. specialize (Hdone Hs').
      destruct Hstep as [-> | [[-> _] | [_ ->]]]; [tauto|tauto|].
      by destruct Hdone.
Qed.

Lemma do_while_view fuel arrivals (w : World) :
  ∃ tasks, view (do_while fuel arrivals w) = abstract_run tasks (view w).
Proof.
  revert arrivals w. induction fuel as [|fuel IH]; intros arrivals w;
    rewrite do_while_unfold;
    destruct (round_spec w) as (_ & _ & _ & _ & _ & _ & _ & Hview).
  - exists (round_tasks w). by destruct (round w).1.
  - destruct (round w).1; [|by exists (round_tasks w)].
    destruct (IH (tail arrivals)
                 (io_steps (default [] (head arrivals)) (round w).2))
      as [tasks Htasks].
    exists (round_tasks w ++ tasks). rewrite Htasks.
    unfold abstract_run. rewrite foldl_app. f_equal.
    rewrite <- Hview. unfold view.
    by destruct (io_steps_keeps (default [] (head arrivals)) (round w).2)
      as (-> & -> & _).
Qed.

(** Whatever arrives meanwhile, a dispatch leaves the state as it is or
    moves it to [kDone] or to [kAccepting]; it ends in [kDone] only if it
    began in [kShutDown] or in [kDone]. *)
Theorem dispatch_moves_state (arrivals : list (list IoThreadStep))
    (w : World) :
  let s' := state_ (DispatchMessages arrivals w) in
  (s' = state_ w ∨ s' = kDone ∨ s' = kAccepting)
  ∧ (s' = kDone → state_ w = kShutDown ∨ state_ w = kDone).
Proof.
  cbv zeta. unfold DispatchMessages.
  destruct (dispatching_messages_ w); [tauto|].
  destruct (do_while_view (length arrivals + 2) arrivals
              (set_dispatching_messages_ true w)) as [tasks Hview].
  change (state_ (set_dispatching_messages_ false ?w0)) with (view w0).1.
  rewrite Hview.
  apply (abstract_run_state tasks (state_ w) (dom (sessions_ w))).
Qed.

(** ** [Start] and [Stop] at the edges *)

Lemma PostIncomingMessage_port action sid message (w : World) :
  port_ (PostIncomingMessage action sid message w) = port_ w.
Proof.
  unfold PostIncomingMessage. simpl.
  by destruct (bool_decide (incoming_message_queue_ w = [])).
Qed.

Lemma handler_port
    (f : InspectorIoDelegate → World → InspectorIoDelegate * World)
    (w : World) :
  (∀ d, port_ (f d w).2 = port_ w) →
  port_ match delegate w with
        | None => w
        | Some d => let '(d, w) := f d w in set_delegate (Some d) w
        end = port_ w.
Proof.
  intros Hf. destruct (delegate w) as [d|]; [|done].
  specialize (Hf d). by destruct (f d w).
Qed.

Lemma io_step_port s (w : World) : port_ (io_step s w) = port_ w.
Proof.
  destruct s as [sid target|sid message|sid|]; cbn [io_step].
  - apply handler_port. intros d. unfold StartSession.
    destruct (waiting_ _); cbn [snd]; by rewrite PostIncomingMessage_port.
  - apply handler_port. intros d. unfold MessageReceived.
    destruct (waiting_ d); [destruct (find _ _)|]; cbn [snd];
      by rewrite PostIncomingMessage_port.
  - apply handler_port. intros d. unfold EndSession. cbn [snd].
    by rewrite PostIncomingMessage_port.
  - unfold IoThreadAsyncCb. destruct (delegate w); [|done]. cbn.
    assert (Hp : ∀ q (w0 : World),
      port_ (foldl (λ w outgoing, emit (transport_calls outgoing) w) w0 q)
      = port_ w0).
    { induction q as [|m q IH]; intros w0; [done|]. simpl. by rewrite IH. }
    by rewrite Hp.
Qed.

Lemma io_steps_port steps (w : World) : port_ (io_steps steps w) = port_ w.
Proof.
  revert w. induction steps as [|s steps IH]; intros w; [done|].
  change (io_steps (s :: steps) w) with (io_steps steps (io_step s w)).
  by rewrite IH, io_step_port.
Qed.

(** [ThreadMain] leaves the session table alone, and the state too unless
    the server fails to start. *)
Lemma ThreadMain_keeps env (w : World) :
  sessions_ (ThreadMain env w) = sessions_ w
  ∧ state_ (ThreadMain env w)
    = (if server_starts env then state_ w else kError)
  ∧ wait_for_connect_ (ThreadMain env w) = wait_for_connect_ w.
Proof.
  unfold ThreadMain. destruct (server_starts env); simpl.
  - destruct (wait_for_connect_ w) eqn:Hwait; simpl;
      match goal with
      | |- context [io_steps ?steps ?w0] =>
          by destruct (io_steps_keeps steps w0) as (-> & -> & _ & _ & _ & ->)
      end.
  - destruct (io_thread_returned env); [unfold thread_exit|]; simpl; done.
Qed.

Lemma PostIncomingMessage_sem action sid message (w : World) :
  thread_start_sem_ (PostIncomingMessage action sid message w)
  = thread_start_sem_ w.
Proof.
  unfold PostIncomingMessage. simpl.
  by destruct (bool_decide (incoming_message_queue_ w = [])).
Qed.

Lemma handler_sem
    (f : InspectorIoDelegate → World → InspectorIoDelegate * World)
    (w : World) :
  (∀ d, thread_start_sem_ w ≤ thread_start_sem_ (f d w).2) →
  thread_start_sem_ w
  ≤ thread_start_sem_ match delegate w with
                      | None => w
                      | Some d =>
                          let '(d, w) := f d w in set_delegate (Some d) w
                      end.
Proof.
  intros Hf. destruct (delegate w) as [d|]; [|done].
  specialize (Hf d). by destruct (f d w).
Qed.

(** The I/O thread posts the start semaphore, it never waits on it. *)
Lemma io_step_sem s (w : World) :
  thread_start_sem_ w ≤ thread_start_sem_ (io_step s w).
Proof.
  destruct s as [sid target|sid message|sid|]; cbn [io_step].
  - apply handler_sem. intros d. unfold StartSession.
    destruct (waiting_ _); cbn [snd]; by rewrite PostIncomingMessage_sem.
  - apply handler_sem. intros d. unfold MessageReceived.
    destruct (waiting_ d); [destruct (find _ _)|]; cbn [snd];
      rewrite PostIncomingMessage_sem; simpl; lia.
  - apply handler_sem. intros d. unfold EndSession. cbn [snd].
    by rewrite PostIncomingMessage_sem.
  - unfold IoThreadAsyncCb. destruct (delegate w); [|done]. cbn.
    assert (Hp : ∀ q (w0 : World),
      thread_start_sem_
        (foldl (λ w outgoing, emit (transport_calls outgoing) w) w0 q)
      = thread_start_sem_ w0).
    { induction q as [|m q IH]; intros w0; [done|]. simpl. by rewrite IH. }
    by rewrite Hp.
Qed.

Lemma io_steps_sem steps (w : World) :
  thread_start_sem_ w ≤ thread_start_sem_ (io_steps steps w).
Proof.
  revert w. induction steps as [|s steps IH]; intros w; [done|].
  change (io_steps (s :: steps) w) with (io_steps steps (io_step s w)).
  etrans; [apply (io_step_sem s)|apply IH].
Qed.

Lemma io_step_server s (w : World) :
  delegate w ≠ None → delegate (io_step s w) ≠ None.
Proof.
  intros Hserver. destruct s as [sid target|sid message|sid|]; cbn [io_step].
  - destruct (delegate w) as [d|]; [|done].
    by destruct (StartSession sid target d w).
  - destruct (delegate w) as [d|]; [|done].
    by destruct (MessageReceived sid message d w).
  - destruct (delegate w) as [d|]; [|done].
    by destruct (EndSession sid d w).
  - by destruct (IoThreadAsyncCb_trace w) as [_ ->].
Qed.

Lemma io_steps_server steps (w : World) :
  delegate w ≠ None → delegate (io_steps steps w) ≠ None.
Proof.
  revert w. induction steps as [|s steps IH]; intros w Hserver; [done|].
  change (io_steps (s :: steps) w) with (io_steps steps (io_step s w)).
  by apply IH, io_step_server.
Qed.


(** [Stop] asserts that the bridge is accepting or has sessions.  On a
    bridge with no session that is in another state it aborts: before
    [Start], and after a [Start] that returned false. *)
Theorem Stop_needs_a_started_bridge (senv : StopEnv) (w : World) :
  sessions_ w = ∅ →
  (state_ w ≠ kAccepting → Stop senv w = Aborts)
  ∧ (∀ env arrivals w',
       Start env arrivals w = Returns (false, w') → Stop senv w' = Aborts).
Proof.
  intros Hempty.
  assert (Haborts : ∀ w0 : World,
    sessions_ w0 = ∅ → state_ w0 ≠ kAccepting → Stop senv w0 = Aborts).
  { intros w0 He Hs. unfold Stop.
    by rewrite (bool_decide_eq_true_2 _ He), (bool_decide_eq_false_2 _ Hs). }
  split; [by apply Haborts|].
  intros env arrivals w'. unfold Start.
  intros [_ [_ Hrest]%CHECK_returns]%CHECK_returns. revert Hrest.
  destruct (ThreadMain_keeps env w) as (Hsessions & Hstate & _).
  destruct (thread_start_sem_ (ThreadMain env w)) as [|n]; [done|].
  case_bool_decide as Herr; [|done]. intros [= <-].
  simpl in Herr. apply Haborts; simpl; [by rewrite Hsessions|].
  by rewrite Herr.
Qed.

(** ** Waiting for the sessions to end *)

Lemma abstract_run_ids tasks (s1 s2 : State) (ids : gset Z) :
  (abstract_run tasks (s1, ids)).2 = (abstract_run tasks (s2, ids)).2.
Proof.
  revert s1 s2 ids. induction tasks as [|task rest IH]; intros s1 s2 ids;
    [done|].
  rewrite !abstract_run_cons.
  pose proof (abstract_step_ids task s1 s2 ids) as Hids.
  destruct (abstract_step task (s1, ids)) as [s1' ids1].
  destruct (abstract_step task (s2, ids)) as [s2' ids2].
  simpl in Hids. subst ids2. apply IH.
Qed.

Lemma table_runs_empty_app tasks1 tasks2 (ids : gset Z) :
  table_runs_empty (tasks1 ++ tasks2) ids
  = table_runs_empty tasks1 ids
    || table_runs_empty tasks2 (abstract_run tasks1 (kNew, ids)).2.
Proof.
  revert ids. induction tasks1 as [|task rest IH]; intros ids; [done|].
  cbn [app table_runs_empty]. rewrite IH, abstract_run_cons, orb_assoc.
  do 2 f_equal.
  destruct (abstract_step task (kNew, ids)) as [s ids']. simpl.
  apply abstract_run_ids.
Qed.

(** If the table runs empty at the last task and not before, the run from
    [kShutDown] ends in [kDone] with no session. *)
Lemma abstract_run_ends_at_last tasks last (ids : gset Z) :
  table_runs_empty tasks ids = false →
  table_runs_empty (tasks ++ [last]) ids = true →
  abstract_run (tasks ++ [last]) (kShutDown, ids) = (kDone, ∅).
Proof.
  intros Hbefore Hlast.
  rewrite table_runs_empty_app, Hbefore in Hlast. simpl in Hlast.
  rewrite orb_false_r in Hlast.
  apply andb_prop in Hlast as [Hend%bool_decide_eq_true Hempty%bool_decide_eq_true].
  pose proof (abstract_run_from_kShutDown tasks ids) as Hstate.
  rewrite Hbefore in Hstate.
  unfold abstract_run in *. rewrite foldl_app. simpl.
  fold (abstract_run tasks (kShutDown, ids)) in *.
  fold (abstract_run tasks (kNew, ids)) in *.
  rewrite (abstract_run_ids tasks kNew kShutDown) in Hempty.
  destruct (abstract_run tasks (kShutDown, ids)) as [s ids']. simpl in *.
  subst s. destruct last as [[action id] message]. simpl in *. subst action.
  by rewrite (bool_decide_eq_true_2 _ Hempty), Hempty.
Qed.


(** ** The delegate *)

Lemma trace_set_delegate v (w : World) :
  trace (set_delegate v w) = trace w.
Proof. done. Qed.

Lemma incoming_set_delegate v (w : World) :
  incoming_message_queue_ (set_delegate v w) = incoming_message_queue_ w.
Proof. done. Qed.

Lemma io_step_posts s (w : World) d :
  delegate w = Some d →
  (∃ d', delegate (io_step s w) = Some d')
  ∧ if is_async s
    then incoming_message_queue_ (io_step s w) = incoming_message_queue_ w
    else ∃ task, incoming_message_queue_ (io_step s w)
                 = incoming_message_queue_ w ++ [task]
                 ∧ posts_as s task.
Proof.
  intros Hd. destruct s as [sid target|sid message|sid|]; cbn [io_step is_async].
  - rewrite Hd. unfold StartSession. cbn [waiting_].
    destruct (waiting_ d); cbv beta iota zeta;
      (split; [by eexists|]); eexists;
      rewrite incoming_set_delegate, PostIncomingMessage_incoming;
      (split; [done|]); constructor; tauto.
  - rewrite Hd. unfold MessageReceived.
    destruct (waiting_ d); [destruct (find _ _)|]; cbv beta iota zeta;
      (split; [by eexists|]); eexists;
      rewrite incoming_set_delegate, PostIncomingMessage_incoming;
      (split; [done|]); constructor.
  - rewrite Hd. unfold EndSession. cbv beta iota zeta.
    split; [by eexists|]. eexists.
    rewrite incoming_set_delegate, PostIncomingMessage_incoming.
    split; [done|]. constructor.
  - destruct (IoThreadAsyncCb_trace w) as [_ ->]. split; [by eexists|].
    unfold IoThreadAsyncCb. rewrite Hd. cbn.
    by destruct (transport_calls_trace (outgoing_message_queue_ w)
                   (set_outgoing_message_queue_ [] w)) as (_ & _ & -> & _).
Qed.

Lemma io_step_no_server s (w : World) :
  delegate w = None → io_step s w = w.
Proof.
  intros Hd. destruct s; cbn [io_step]; unfold IoThreadAsyncCb;
    by rewrite Hd.
Qed.

(** While the server runs, every event it hands to the delegate is posted
    to the incoming queue as one task, in the order of the events, with the
    session id of the event; the async handle posts nothing.  Without a
    server nothing happens. *)
Theorem delegate_posts_every_event (steps : list IoThreadStep) (w : World) :
  (delegate w ≠ None →
     ∃ tasks,
       incoming_message_queue_ (io_steps steps w)
       = incoming_message_queue_ w ++ tasks
       ∧ Forall2 posts_as (List.filter (λ s, negb (is_async s)) steps) tasks)
  ∧ (delegate w = None → io_steps steps w = w).
Proof.
  split.
  - revert w. induction steps as [|s steps IH]; intros w Hserver.
    + exists []. by rewrite app_nil_r.
    + destruct (delegate w) as [d|] eqn:Hd; [|done].
      destruct (io_step_posts s w d Hd) as [[d' Hd'] Hpost].
      change (io_steps (s :: steps) w) with (io_steps steps (io_step s w)).
      destruct (IH (io_step s w)) as (tasks & -> & Hall);
        [by rewrite Hd'|].
      cbn [List.filter]. destruct (is_async s); cbn [negb].
      * exists tasks. by rewrite Hpost.
      * destruct Hpost as (task & -> & Htask). exists (task :: tasks).
        rewrite <- app_assoc. split; [done|]. by constructor.
  - intros Hnone. induction steps as [|s steps IH]; [done|].
    change (io_steps (s :: steps) w) with (io_steps steps (io_step s w)).
    by rewrite (io_step_no_server s w Hnone).
Qed.

(** ** Pausing for the frontend *)

Lemma transport_calls_no_broadcast (queue : MessageQueue TransportAction.t) :
  Broadcast ∉ concat (transport_calls <$> queue).
Proof.
  induction queue as [|[[action sid] message] queue IH].
  - apply not_elem_of_nil.
  - change (Broadcast ∉ transport_calls (action, sid, message)
                        ++ concat (transport_calls <$> queue)).
    rewrite elem_of_app. intros [Hin|Hin]; [|done].
    destruct action; simpl in Hin;
      repeat (apply elem_of_cons in Hin as [Hin|Hin]; [done|]);
      by apply elem_of_nil in Hin.
Qed.

Lemma PostIncomingMessage_broadcasts action sid message (w : World) :
  ∃ e, trace (PostIncomingMessage action sid message w)
       = trace w ++ e ++ [Broadcast].
Proof. rewrite PostIncomingMessage_trace. by eexists (_ :: _). Qed.

(** A handler of the delegate broadcasts. *)
Lemma io_step_broadcasts s (w : World) d :
  delegate w = Some d → is_async s = false →
  ∃ e, trace (io_step s w) = trace w ++ e ++ [Broadcast].
Proof.
  intros Hd Hs. destruct s as [sid target|sid message|sid|]; [..|done];
    cbn [io_step]; rewrite Hd.
  - unfold StartSession. cbn [waiting_].
    destruct (waiting_ d); cbv beta iota zeta; rewrite trace_set_delegate.
    + destruct (PostIncomingMessage_broadcasts
                  InspectorAction.kStartSessionUnconditionally sid EmptyString
                  (emit [AcceptSession sid] w)) as (e & ->).
      exists ([AcceptSession sid] ++ e).
      change (trace (emit [AcceptSession sid] w))
        with (trace w ++ [AcceptSession sid]).
      by rewrite <- !app_assoc.
    + apply PostIncomingMessage_broadcasts.
  - unfold MessageReceived.
    destruct (waiting_ d); [destruct (find _ _)|]; cbv beta iota zeta;
      rewrite trace_set_delegate; [|apply PostIncomingMessage_broadcasts..].
    destruct (PostIncomingMessage_broadcasts
                InspectorAction.kSendMessage sid message (ResumeStartup w))
      as (e & ->).
    exists ([ResumeStartupCalled] ++ e).
    change (trace (ResumeStartup w)) with (trace w ++ [ResumeStartupCalled]).
    by rewrite <- !app_assoc.
  - unfold EndSession. cbv beta iota zeta. rewrite trace_set_delegate.
    apply PostIncomingMessage_broadcasts.
Qed.

(** A turn of the event loop broadcasts exactly when the delegate has posted
    a task. *)
Lemma io_steps_broadcast steps (w : World) :
  ∃ tasks e,
    incoming_message_queue_ (io_steps steps w)
    = incoming_message_queue_ w ++ tasks
    ∧ trace (io_steps steps w) = trace w ++ e
    ∧ (Broadcast ∈ e ↔ tasks ≠ []).
Proof.
  revert w. induction steps as [|s steps IH]; intros w.
  - exists [], []. rewrite !app_nil_r. split; [done|]. split; [done|].
    split; [by intros ?%elem_of_nil|done].
  - change (io_steps (s :: steps) w) with (io_steps steps (io_step s w)).
    destruct (IH (io_step s w)) as (tasks2 & e2 & -> & -> & Hcast2).
    destruct (wakeups_atoms _ _ (atoms_io_step s w)) as (e1 & He1 & _).
    destruct (delegate w) as [d|] eqn:Hd.
    + destruct (io_step_posts s w d Hd) as [_ Hpost].
      destruct (is_async s) eqn:Hs.
      * exists tasks2, (e1 ++ e2). rewrite Hpost, He1, <- app_assoc.
        split; [done|]. split; [done|]. rewrite <- Hcast2, elem_of_app.
        split; [|by right]. intros [Hin|Hin]; [|done].
        exfalso. destruct s; try done. cbn [io_step] in He1.
        destruct (IoThreadAsyncCb_trace w) as [Ht _]. rewrite Hd in Ht.
        rewrite Ht in He1. apply app_inv_head in He1. subst e1.
        by apply transport_calls_no_broadcast in Hin.
      * destruct Hpost as (task & -> & _).
        destruct (io_step_broadcasts s w d Hd Hs) as (e & He).
        rewrite He in He1. apply app_inv_head in He1. subst e1.
        exists (task :: tasks2), ((e ++ [Broadcast]) ++ e2).
        rewrite He, <- !app_assoc. split; [done|].
        split; [done|].
        split; [done|]. intros _. rewrite !elem_of_app. right. left.
        by apply list_elem_of_singleton.
    + rewrite (io_step_no_server s w Hd) in *.
      exists tasks2, e2. split; [done|]. split; [done|]. exact Hcast2.
Qed.

(** [WaitForFrontendEvent] clears the flag of the dispatch loop and leaves
    the session table and the state alone.  It returns false exactly when
    the session table is empty.  Unless a late or spurious wakeup ended the
    wait, it returns true only with a task in the drain buffer or in the
    incoming queue; with such a wakeup it returns true on a bridge with
    sessions although nothing is queued.  It waits for ever only on a bridge
    with sessions whose queues are empty and stay empty. *)
Theorem WaitForFrontendEvent_returns (meanwhile : list IoThreadStep)
    (woken : bool) (w : World) :
  (∀ b w', WaitForFrontendEvent meanwhile woken w = Returns (b, w') →
     dispatching_messages_ w' = false
     ∧ sessions_ w' = sessions_ w
     ∧ state_ w' = state_ w
     ∧ (b = false ↔ sessions_ w = ∅)
     ∧ (woken = false → b = true →
          dispatching_message_queue_ w' ≠ []
          ∨ incoming_message_queue_ w' ≠ []))
  ∧ (sessions_ w ≠ ∅ → dispatching_message_queue_ w = [] →
     incoming_message_queue_ w = [] →
     WaitForFrontendEvent [] true w
     = Returns (true, set_dispatching_messages_ false w))
  ∧ (WaitForFrontendEvent meanwhile woken w = Blocks →
     woken = false ∧ sessions_ w ≠ ∅
     ∧ dispatching_message_queue_ w = []
     ∧ incoming_message_queue_
         (io_steps meanwhile (set_dispatching_messages_ false w)) = [])
  ∧ WaitForFrontendEvent meanwhile woken w ≠ Aborts.
Proof.
  unfold WaitForFrontendEvent. cbn [sessions_ set_dispatching_messages_].
  set (w0 := set_dispatching_messages_ false w).
  destruct (io_steps_broadcast meanwhile w0)
    as (tasks & e & Hinc & Ht & Hcast).
  destruct (io_steps_keeps meanwhile w0) as (Hst & Hs & Hbuf & Hflag & _).
  change (incoming_message_queue_ w0) with (incoming_message_queue_ w) in *.
  change (dispatching_message_queue_ w0)
    with (dispatching_message_queue_ w) in *.
  rewrite Ht, drop_app_length.
  split; [|split; [|split]].
  - intros b w'.
    destruct (decide (sessions_ w = ∅)) as [He|He];
      [rewrite (bool_decide_eq_true_2 _ He)
      |rewrite (bool_decide_eq_false_2 _ He)].
    { intros [= <- <-]. by repeat split. }
    destruct (decide (dispatching_message_queue_ w = [])) as [Hd|Hd];
      [rewrite (bool_decide_eq_true_2 _ Hd)
      |rewrite (bool_decide_eq_false_2 _ Hd)]; cbn [andb].
    2:{ intros [= <- <-]. repeat split; try done. by left. }
    destruct (decide (incoming_message_queue_ w = [])) as [Hi|Hi];
      [rewrite (bool_decide_eq_true_2 _ Hi)
      |rewrite (bool_decide_eq_false_2 _ Hi)].
    2:{ intros [= <- <-]. repeat split; try done. by right. }
    destruct (decide (Broadcast ∈ e)) as [Hwoken|Hquiet];
      [rewrite (bool_decide_eq_true_2 _ Hwoken)
      |rewrite (bool_decide_eq_false_2 _ Hquiet)]; cbn [orb].
    + intros [= <- <-]. rewrite Hflag, Hs, Hst.
      repeat split; try done. intros _ _. right. rewrite Hinc.
      apply Hcast in Hwoken. by intros [_ ?]%app_eq_nil.
    + destruct woken; [|done]. intros [= <- <-]. rewrite Hflag, Hs, Hst.
      by repeat split.
  - intros He Hd Hi.
    by rewrite (bool_decide_eq_false_2 _ He), (bool_decide_eq_true_2 _ Hd),
         (bool_decide_eq_true_2 _ Hi), orb_true_r.
  - destruct (decide (sessions_ w = ∅)) as [He|He];
      [by rewrite (bool_decide_eq_true_2 _ He)
      |rewrite (bool_decide_eq_false_2 _ He)].
    destruct (decide (dispatching_message_queue_ w = [])) as [Hd|Hd];
      [rewrite (bool_decide_eq_true_2 _ Hd)
      |by rewrite (bool_decide_eq_false_2 _ Hd)]; cbn [andb].
    destruct (decide (incoming_message_queue_ w = [])) as [Hi|Hi];
      [rewrite (bool_decide_eq_true_2 _ Hi)
      |by rewrite (bool_decide_eq_false_2 _ Hi)].
    destruct (decide (Broadcast ∈ e)) as [Hwoken|Hquiet];
      [by rewrite (bool_decide_eq_true_2 _ Hwoken)
      |rewrite (bool_decide_eq_false_2 _ Hquiet)]; cbn [orb].
    destruct woken; [done|]. intros _.
    repeat split; try done. rewrite Hinc, Hi. cbn [app].
    destruct tasks; [done|]. exfalso. by apply Hquiet, Hcast.
  - repeat case_bool_decide; cbn [andb orb]; try done.
    all: by destruct woken.
Qed.

(** ** A session from the transport to the agent *)

Lemma occurrences_here e es :
  occurrences (is_event e) (e :: es) = S (occurrences (is_event e) es).
Proof.
  unfold occurrences, is_event. cbn [List.filter].
  by rewrite bool_decide_eq_true_2.
Qed.

Lemma occurrences_skip e e' es :
  e' ≠ e → occurrences (is_event e) (e' :: es) = occurrences (is_event e) es.
Proof.
  intros Hne. unfold occurrences, is_event. cbn [List.filter].
  by rewrite bool_decide_eq_false_2.
Qed.

Lemma Attach_spec session_id (w : World) :
  (Attach session_id w).1 = TransportAction.kAcceptSession
  ∧ trace (Attach session_id w).2
    = trace w ++ [Stderr debugger_attached; AgentConnect session_id]
  ∧ sessions_ (Attach session_id w).2
    = <[session_id := (agent_Connect (agent w) session_id).2]> (sessions_ w)
  ∧ outgoing_message_queue_ (Attach session_id w).2
    = outgoing_message_queue_ w.
Proof.
  unfold Attach. cbn [emit agent].
  destruct (agent_Connect (agent w) session_id) as [agent' session].
  cbn. by rewrite <- app_assoc.
Qed.

Lemma Write_keeps_sessions action session_id message (w : World) :
  sessions_ (Write action session_id message w) = sessions_ w.
Proof. done. Qed.

Lemma DispatchMessages_core (w : World) :
  dispatching_messages_ w = false →
  same_core (DispatchMessages [] w)
            (run_tasks (dispatching_message_queue_ w
                        ++ incoming_message_queue_ w) w)
  ∧ delegate (DispatchMessages [] w) = delegate w.
Proof.
  intros Hflag. split; [|by apply DispatchMessages_quiet].
  unfold DispatchMessages. rewrite Hflag. cbn [length plus].
  set (w0 := set_dispatching_messages_ true w).
  assert (Hw0 : same_core w0 w) by done.
  pose proof (run_tasks_same_core
                (dispatching_message_queue_ w ++ incoming_message_queue_ w)
                w0 w Hw0) as (? & ? & ? & ? & ?).
  assert (Hload : queue_load w0 ≤ 2)
    by (unfold queue_load; repeat case_bool_decide; lia).
  pose proof (do_while_quiet 2 w0 Hload) as Hq.
  change (dispatching_message_queue_ w0)
    with (dispatching_message_queue_ w) in Hq.
  change (incoming_message_queue_ w0) with (incoming_message_queue_ w) in Hq.
  destruct Hq as (? & ? & ? & ? & ?).
  repeat split; cbn [state_ sessions_ outgoing_message_queue_ agent trace
                     set_dispatching_messages_]; congruence.
Qed.


End Sessions.

(** ** The further properties on the example bridge *)

(** A session is started and ended by two posts before the runtime thread
    dispatches. *)
Lemma incoming_tasks_in_order_witness :
  let posts := [(InspectorAction.kStartSession, 2%Z, EmptyString);
                (InspectorAction.kEndSession, 2%Z, EmptyString)] in
  let w1 := post_all posts example_started in
  dispatching_messages_ example_started = false
  ∧ same_core (DispatchMessages [] w1)
              (run_tasks (posted <$> posts) w1)
  ∧ incoming_message_queue_ (DispatchMessages [] w1) = [].
Proof.
  cbv zeta.
  assert (Hflag : dispatching_messages_ example_started = false)
    by reflexivity.
  destruct (incoming_tasks_in_order
              [(InspectorAction.kStartSession, 2%Z, EmptyString);
               (InspectorAction.kEndSession, 2%Z, EmptyString)]
              example_started Hflag) as (Hcore & Hinc & _).
  split; [exact Hflag|]. split; [exact Hcore|]. exact Hinc.
Defined.


(** A message for the frontend and the kill of [Stop], written to the
    attached bridge. *)
Lemma outgoing_actions_in_order_witness :
  let writes := [(TransportAction.kSendMessage, 1%Z, [104%Z; 105%Z]);
                 (TransportAction.kKill, 0%Z, empty_view)] in
  let w1 := write_all writes example_attached in
  delegate example_attached ≠ None
  ∧ since w1 (IoThreadAsyncCb w1)
    = concat (transport_calls
                <$> (outgoing_message_queue_ example_attached ++ writes))
  ∧ outgoing_message_queue_ (IoThreadAsyncCb w1) = [].
Proof.
  cbv zeta.
  assert (Hserver : delegate example_attached ≠ None)
    by (vm_compute; discriminate).
  destruct (outgoing_actions_in_order
              [(TransportAction.kSendMessage, 1%Z, [104%Z; 105%Z]);
               (TransportAction.kKill, 0%Z, empty_view)]
              example_attached) as [Hwith _].
  split; [exact Hserver|]. exact (Hwith Hserver).
Defined.

(** A session is started, attached and accepted; nobody calls [Stop]. *)
Lemma connections_survive_without_Stop_witness :
  let cs := [CallPostIncomingMessage InspectorAction.kStartSession 1
                                     EmptyString;
             CallDispatchMessages []; CallIoThread [OnAsync]] in
  forallb (λ c, negb (writes_kill c)) cs = true
  ∧ List.filter is_kill (outgoing_message_queue_ example_started) = []
  ∧ occurrences (is_event TerminateConnections)
                (since example_started (calls cs example_started)) = 0.
Proof.
  cbv zeta.
  assert (Hcalls : forallb (λ c, negb (writes_kill c))
                     [CallPostIncomingMessage InspectorAction.kStartSession 1
                                              EmptyString;
                      CallDispatchMessages []; CallIoThread [OnAsync]]
                   = true) by reflexivity.
  assert (Hqueue : List.filter is_kill
                     (outgoing_message_queue_ example_started) = [])
    by (vm_compute; reflexivity).
  destruct (connections_survive_without_Stop _ _ Hcalls Hqueue)
    as [Hnone _].
  split; [exact Hcalls|]. split; [exact Hqueue|]. exact Hnone.
Defined.

(** Session 1 of the attached bridge ends; session 2 is another one. *)
Lemma session_ends_for_good_witness :
  let ended := process (InspectorAction.kEndSession, 1%Z, empty_view)
                       example_attached in
  2%Z ≠ 1%Z
  ∧ sessions_ ended !! 1%Z = None
  ∧ process (InspectorAction.kSendMessage, 1%Z, [104%Z]) ended = ended
  ∧ sessions_ ended !! 2%Z = sessions_ example_attached !! 2%Z.
Proof.
  cbv zeta.
  assert (Hother : 2%Z ≠ 1%Z) by discriminate.
  destruct (session_ends_for_good 1%Z empty_view example_attached)
    as (Hgone & Hdropped & Hothers & _).
  split; [exact Hother|]. split; [exact Hgone|].
  split; [exact (Hdropped [104%Z])|].
  exact (proj2 (Hothers 2%Z Hother)).
Defined.

(** The last session ends after [WaitForDisconnect]: the dispatch ends in
    [kDone], and it started in [kShutDown]. *)
Lemma dispatch_moves_state_witness :
  let w := PostIncomingMessage InspectorAction.kEndSession 1 EmptyString
             (WaitForDisconnect example_attached) in
  state_ (DispatchMessages [] w) = kDone
  ∧ (state_ w = kShutDown ∨ state_ w = kDone).
Proof.
  cbv zeta.
  assert (Hdone : state_ (DispatchMessages []
                            (PostIncomingMessage InspectorAction.kEndSession
                               1 EmptyString
                               (WaitForDisconnect example_attached)))
                  = kDone) by (vm_compute; reflexivity).
  destruct (dispatch_moves_state []
              (PostIncomingMessage InspectorAction.kEndSession 1 EmptyString
                 (WaitForDisconnect example_attached))) as [_ Hfrom].
  split; [exact Hdone|]. exact (Hfrom Hdone).
Defined.


(** [Stop] on the bridge as constructed. *)
Lemma Stop_needs_a_started_bridge_witness :
  let w := InspectorIo_new false 0%nat in
  sessions_ w = ∅ ∧ state_ w ≠ kAccepting
  ∧ Stop example_stop_env w = Aborts.
Proof.
  cbv zeta.
  assert (Hempty : sessions_ (InspectorIo_new false 0%nat) = ∅)
    by reflexivity.
  assert (Hnew : state_ (InspectorIo_new false 0%nat) ≠ kAccepting)
    by discriminate.
  destruct (Stop_needs_a_started_bridge example_stop_env _ Hempty)
    as [Hstate _].
  split; [exact Hempty|]. split; [exact Hnew|]. exact (Hstate Hnew).
Defined.


(** The server starts and ends a session, with a wakeup in between. *)
Lemma delegate_posts_every_event_witness :
  let steps := [OnStartSession 1 EmptyString; OnAsync; OnEndSession 1] in
  delegate example_started ≠ None
  ∧ ∃ tasks,
      incoming_message_queue_ (io_steps steps example_started)
      = incoming_message_queue_ example_started ++ tasks
      ∧ Forall2 posts_as [OnStartSession 1 EmptyString; OnEndSession 1] tasks.
Proof.
  cbv zeta.
  assert (Hserver : delegate example_started ≠ None)
    by (vm_compute; discriminate).
  destruct (delegate_posts_every_event
              [OnStartSession 1 EmptyString; OnAsync; OnEndSession 1]
              example_started) as [Hwith _].
  split; [exact Hserver|]. exact (Hwith Hserver).
Defined.

(** The runtime pauses on the attached bridge, whose queues are empty: a
    late wakeup ends the wait with nothing queued; without one the wait ends
    when the frontend sends a message. *)
Lemma WaitForFrontendEvent_returns_witness :
  let w := example_attached in
  (sessions_ w ≠ ∅ ∧ dispatching_message_queue_ w = []
   ∧ incoming_message_queue_ w = [])
  ∧ WaitForFrontendEvent [] true w
    = Returns (true, set_dispatching_messages_ false w)
  ∧ ∃ w', WaitForFrontendEvent [OnMessageReceived 1 EmptyString] false w
          = Returns (true, w')
          ∧ dispatching_messages_ w' = false
          ∧ (dispatching_message_queue_ w' ≠ []
             ∨ incoming_message_queue_ w' ≠ []).
Proof.
  cbv zeta.
  assert (Hsession : sessions_ example_attached ≠ ∅).
  { intros Hempty. apply (f_equal (λ m, m !! 1%Z)) in Hempty.
    vm_compute in Hempty. discriminate. }
  assert (Hbuffer : dispatching_message_queue_ example_attached = [])
    by reflexivity.
  assert (Hincoming : incoming_message_queue_ example_attached = [])
    by reflexivity.
  assert (Hreturns : ∃ w', WaitForFrontendEvent
                             [OnMessageReceived 1 EmptyString] false
                             example_attached = Returns (true, w'))
    by (eexists; vm_compute; reflexivity).
  destruct Hreturns as [w' Hreturns].
  destruct (WaitForFrontendEvent_returns [] true example_attached)
    as (_ & Hlate & _).
  destruct (WaitForFrontendEvent_returns [OnMessageReceived 1 EmptyString]
              false example_attached) as (Hreturned & _).
  destruct (Hreturned _ _ Hreturns) as (Hflag & _ & _ & _ & Hwork).
  split; [by repeat split|].
  split; [exact (Hlate Hsession Hbuffer Hincoming)|].
  exists w'. split; [exact Hreturns|]. split; [exact Hflag|].
  exact (Hwork eq_refl eq_refl).
Defined.

